(** * Sure-winning region solver of [parallel_dtptb]

    A shallow embedding of [parallel_dtptb/solver.py] (the matrix-based
    attractor computation [SWinReacher.solver]), of the matrix builder of
    [parallel_dtptb/models.py] and of the example game of
    [parallel_dtptb/jobstmann.py], followed by the properties of the
    solver.

    Conventions of the embedding:
    - Python integers are [Z]; Python lists are Rocq lists;
    - a numpy array is a shape with a total cell function; indexing
      follows numpy: a negative index wraps once, an index outside
      [-len, len) raises [IndexError], or [OverflowError] when it is in
      [2^63, 2^64) and does not fit numpy's index type;
    - exceptions are the [Raise] case of the [result] monad;
    - the [while] loop of the solver is driven by a fuel argument; the
      solver itself is run with a fuel that is shown to suffice. *)

From stdpp Require Import base numbers list.

Local Open Scope Z_scope.

(** ** Exceptions *)

Inductive exn := IndexError | KeyError | OverflowError.

Inductive result (A : Type) : Type :=
  | Ok (a : A)
  | Raise (e : exn).
Arguments Ok {A} a.
Arguments Raise {A} e.

Global Instance exn_eq_dec : EqDecision exn.
Proof. solve_decision. Defined.
Global Instance result_eq_dec {A} `{EqDecision A} : EqDecision (result A).
Proof. solve_decision. Defined.

Global Instance result_ret : MRet result := @Ok.
Global Instance result_bind : MBind result := λ A B f m,
  match m with Ok a => f a | Raise e => Raise e end.

(** [for x in xs: body], threading the variables the body assigns. *)
Fixpoint for_each {X S : Type} (xs : list X) (body : X → S → result S) (s : S)
  : result S :=
  match xs with
  | [] => Ok s
  | x :: xs' => s' ← body x s; for_each xs' body s'
  end.

(** [range(n)] *)
Definition range (n : nat) : list Z := Z.of_nat <$> seq 0 n.

(** ** numpy arrays *)

Record ndarray := NdArray {
  shape0 : nat;
  shape1 : nat;
  data : nat → nat → Z
}.

(** The exception numpy raises for an index [k] outside [-len, len) of an
    axis of length [len].  The index is first converted to numpy's signed
    64-bit index type: an index in [2^63, 2^64) raises [OverflowError]
    there, every other index out of bounds raises [IndexError].  The axes
    of a numpy array are themselves shorter than 2^63, which is the second
    condition below: it holds of every array the code can build, and it
    keeps an index equal to the length of its axis an [IndexError]. *)
Definition index_exn (len : nat) (k : Z) : exn :=
  if decide (2 ^ 63 ≤ k < 2 ^ 64 ∧ Z.of_nat len < 2 ^ 63)
  then OverflowError else IndexError.

(** numpy's index normalisation along an axis of length [len]. *)
Definition norm_index (len : nat) (k : Z) : result nat :=
  if decide (0 ≤ k < Z.of_nat len) then Ok (Z.to_nat k)
  else if decide (- Z.of_nat len ≤ k < 0) then Ok (Z.to_nat (k + Z.of_nat len))
  else Raise (index_exn len k).

(** [matrix[row, col]].  Wherever the source indexes a matrix, one of the
    two indices comes from [range] of the very axis it indexes, so at most
    one of them is out of range. *)
Definition getitem (matrix : ndarray) (row col : Z) : result Z :=
  r ← norm_index (shape0 matrix) row;
  c ← norm_index (shape1 matrix) col;
  Ok (data matrix r c).

(** [matrix[row, col] = v] *)
Definition setitem (matrix : ndarray) (row col : Z) (v : Z) : result ndarray :=
  r ← norm_index (shape0 matrix) row;
  c ← norm_index (shape1 matrix) col;
  Ok {| shape0 := shape0 matrix; shape1 := shape1 matrix;
        data := λ r' c', if decide (r' = r ∧ c' = c) then v
                         else data matrix r' c' |}.

(** [np.zeros((n, m))] *)
Definition zeros (n m : nat) : ndarray :=
  {| shape0 := n; shape1 := m; data := λ _ _, 0 |}.

(** [matrix.T] *)
Definition transpose (matrix : ndarray) : ndarray :=
  {| shape0 := shape1 matrix; shape1 := shape0 matrix;
     data := λ r c, data matrix c r |}.

(** One-dimensional arrays ([tmpMap]): [a[k]] and [a[k] = v]. *)
Definition getitem1 (a : list Z) (k : Z) : result Z :=
  k' ← norm_index (length a) k;
  match a !! k' with
  | Some x => Ok x
  | None => Raise IndexError
  end.

Definition setitem1 (a : list Z) (k : Z) (v : Z) : result (list Z) :=
  k' ← norm_index (length a) k;
  Ok (<[k' := v]> a).

(** ** Python dictionaries, as insertion-ordered association lists *)

Section dict.
Context {K V : Type} `{EqDecision K}.

Fixpoint dict_set (d : list (K * V)) (k : K) (v : V) : list (K * V) :=
  match d with
  | [] => [(k, v)]
  | (k', v') :: d' =>
      if decide (k' = k) then (k, v) :: d' else (k', v') :: dict_set d' k v
  end.

Fixpoint dict_get (d : list (K * V)) (k : K) : result V :=
  match d with
  | [] => Raise KeyError
  | (k', v') :: d' => if decide (k' = k) then Ok v' else dict_get d' k
  end.

(** [dict(kvs)] *)
Definition dict_of (kvs : list (K * V)) : list (K * V) :=
  foldl (λ d kv, dict_set d kv.1 kv.2) [] kvs.

(** iteration over a dictionary yields its keys *)
Definition dict_keys (d : list (K * V)) : list K := d.*1.
End dict.

(** ** The game interface ([ggsolver.models.Game], as far as it is used) *)

Record Game (Act : Type) := {
  states : list Z;
  actions : list Act;
  delta : Z → Act → option Z;
  final : Z → bool;
  turn : Z → Z
}.
Arguments states {Act} g.
Arguments actions {Act} g.
Arguments delta {Act} g state act.
Arguments final {Act} g state.
Arguments turn {Act} g state.

(** ** [MyGame.matrixBuilder] (models.py)

    [matrix_M] is filled but never read nor returned; it is left out. *)
Definition matrixBuilder {Act} `{EqDecision Act}
    (game : Game Act) (states : list Z) (actions : list Act) : result ndarray :=
  let n := length states in
  let states := dict_of (zip states (range (length states))) in
  let actions := dict_of (zip actions (range (length actions))) in
  let matrix_A := zeros n n in
  for_each (dict_keys states) (λ s matrix_A,
    for_each (dict_keys actions) (λ a matrix_A,
      match delta game s a with
      | None => Ok matrix_A
      | Some ds =>
          i ← dict_get states s;
          j ← dict_get states ds;
          k ← dict_get actions a;
          setitem matrix_A i j 1
      end) matrix_A) matrix_A.

(** ** [JobstmannGame] (jobstmann.py) *)
Definition JobstmannGame (param_final : list Z) : Game (Z * Z) :=
  {| states := range 4;
     actions := [(0, 1); (1, 2); (2, 3)];
     delta state act := if decide (state = act.1) then Some act.2 else None;
     final state := bool_decide (state ∈ param_final);
     turn state := if decide (state ∈ [2]) then 1 else 2 |}.

(** ** [SWinReacher.solver] (solver.py) *)

(** helper [adj]: the columns holding a 1 in [row] *)
Definition adj (matrix : ndarray) (row : Z) : result (list Z) :=
  for_each (range (shape1 matrix)) (λ col temp,
    x ← getitem matrix row col;
    Ok (if decide (x = 1) then temp ++ [col] else temp)) [].

Section solver.
Context {Act : Type} (game : Game Act) (G T : ndarray) (final : list Z) (i : Z).

(** lines 51-56: the preprocessing pass that builds [Removed] *)
Definition removed_states : result (list Z) :=
  for_each (range (shape0 G)) (λ iter Removed,
    x ← getitem G iter iter;
    if decide (x = 1 ∧ turn game iter = 2) then
      for_each (range (shape0 G)) (λ iter1 Removed,
        y ← getitem G iter1 iter;
        Ok (if decide (y = 1 ∧ turn game iter = 2)
            then Removed ++ [iter1] else Removed)) Removed
    else Ok Removed) [].

(** lines 65-70: the counter array *)
Definition init_tmpMap (A : list Z) : result (list Z) :=
  for_each (range (shape0 G)) (λ x tmpMap,
    setitem1 tmpMap x (if decide (x ∈ A) then 0 else -1))
    (replicate (shape0 G) 0).

(** lines 85-88: successors of [v0] outside [Removed], counted from -1 *)
Definition count_adj (Removed succs : list Z) : Z :=
  foldl (λ adj_counter x,
           if decide (x ∈ Removed) then adj_counter else adj_counter + 1)
        (-1) succs.

(** lines 76-95: the body of [for v0 in adj(T, A[index])] *)
Definition visit (Removed : list Z) (v0 : Z) (st : list Z * list Z)
  : result (list Z * list Z) :=
  let '(A, tmpMap) := st in
  if decide (v0 ∈ Removed) then Ok (A, tmpMap) else
  t ← getitem1 tmpMap v0;
  st1 ← (if decide (t = -1) then
           if decide (turn game v0 = i) then
             tmpMap' ← setitem1 tmpMap v0 0;
             Ok (A ++ [v0], tmpMap')
           else
             succs ← adj G v0;
             let adj_counter := count_adj Removed succs in
             tmpMap' ← setitem1 tmpMap v0 adj_counter;
             Ok (if decide (adj_counter = 0) then A ++ [v0] else A, tmpMap')
         else Ok (A, tmpMap));
  let '(A, tmpMap) := st1 in
  if decide (turn game v0 = 2) then
    t ← getitem1 tmpMap v0;
    if decide (t > 0) then
      tmpMap' ← setitem1 tmpMap v0 (t - 1);
      t' ← getitem1 tmpMap' v0;
      Ok (if decide (t' = 0) then A ++ [v0] else A, tmpMap')
    else Ok (A, tmpMap)
  else Ok (A, tmpMap).

(** lines 75-96: one iteration of the [while] loop, without [index += 1] *)
Definition iteration (Removed : list Z) (index : nat) (st : list Z * list Z)
  : result (list Z * list Z) :=
  match st.1 !! index with
  | None => Raise IndexError
  | Some v =>
      preds ← adj T v;
      for_each preds (visit Removed) st
  end.

(** lines 73-97: [while index < len(A)], then [return A] *)
Fixpoint while_loop (fuel : nat) (Removed : list Z) (index : nat)
    (st : list Z * list Z) : option (result (list Z)) :=
  match fuel with
  | O => None
  | S fuel' =>
      if decide (index < length st.1)%nat then
        match iteration Removed index st with
        | Raise e => Some (Raise e)
        | Ok st' => while_loop fuel' Removed (S index) st'
        end
      else Some (Ok st.1)
  end.

Definition solver_fuel (fuel : nat) : option (result (list Z)) :=
  match removed_states with
  | Raise e => Some (Raise e)
  | Ok Removed =>
      let A := final in
      match init_tmpMap A with
      | Raise e => Some (Raise e)
      | Ok tmpMap => while_loop fuel Removed 0 (A, tmpMap)
      end
  end.

(** [solver(self, game, G, T, final, i)].  The worklist never holds more
    than [len(final) + n] states, which bounds the number of iterations
    (see [while_loop_enough_fuel]). *)
Definition solver : option (result (list Z)) :=
  solver_fuel (S (length final + shape0 G)).
End solver.

(** The calls of [__main__] in jobstmann.py: build the matrix of the game,
    then solve with [T=graph.T]. *)
Definition solve_game {Act} `{EqDecision Act} (game : Game Act)
    (final : list Z) (i : Z) : option (result (list Z)) :=
  match matrixBuilder game (states game) (actions game) with
  | Raise e => Some (Raise e)
  | Ok graph => solver game graph (transpose graph) final i
  end.

Definition jobstmann_main : option (result (list Z)) :=
  let game := JobstmannGame [3] in solve_game game [3] 1.

(** The matrix handed to the solver; [zeros 0 0] stands for a failed build. *)
Definition graph_of {Act} `{EqDecision Act} (game : Game Act) : ndarray :=
  match matrixBuilder game (states game) (actions game) with
  | Ok graph => graph
  | Raise _ => zeros 0 0
  end.

(** Games written the way [JobstmannGame] is: states [0..n-1], one action
    per edge, the states of [player1] owned by player 1 and all others by
    player 2. *)
Definition EdgeGame (n : nat) (edges : list (Z * Z)) (player1 : list Z)
    (param_final : list Z) : Game (Z * Z) :=
  {| states := range n;
     actions := edges;
     delta state act := if decide (state = act.1) then Some act.2 else None;
     final state := bool_decide (state ∈ param_final);
     turn state := if decide (state ∈ player1) then 1 else 2 |}.

(** ** Further games, written like [JobstmannGame] *)

(** The game of jobstmann.py with the extra edge [1→4] into a fifth state
    without outgoing edges. *)
Definition EscapeGame (param_final : list Z) : Game (Z * Z) :=
  EdgeGame 5 [(0, 1); (1, 2); (1, 4); (2, 3)] [2] param_final.

(** Two states of player 2: a self-loop on 0 and the edge [1→0]. *)
Definition SelfLoopGame (param_final : list Z) : Game (Z * Z) :=
  EdgeGame 2 [(0, 0); (1, 0)] [] param_final.

(** Three states of player 2: a self-loop on 0 and the path [0→1→2]. *)
Definition LoopPathGame (param_final : list Z) : Game (Z * Z) :=
  EdgeGame 3 [(0, 0); (0, 1); (1, 2)] [] param_final.

(** * Properties *)

(** ** The [result] monad and the loops *)

Lemma bind_Ok {A B} (m : result A) (f : A → result B) b :
  m ≫= f = Ok b ↔ ∃ a, m = Ok a ∧ f a = Ok b.
Proof.
  destruct m as [a|e]; simpl; split.
  - intros H; by exists a.
  - by intros (a' & [= ->] & H).
  - done.
  - by intros (a' & ? & _).
Qed.

(** A loop whose body never raises on the elements it meets runs as a
    left fold. *)
Lemma for_each_foldl {X S} (I : S → Prop) (f : S → X → S) (xs : list X)
    (body : X → S → result S) s :
  (∀ x s, x ∈ xs → I s → body x s = Ok (f s x) ∧ I (f s x)) →
  I s →
  for_each xs body s = Ok (foldl f s xs) ∧ I (foldl f s xs).
Proof.
  revert s; induction xs as [|x xs IH]; intros s Hbody Hs; simpl; [done|].
  destruct (Hbody x s) as [-> Hs']; [left|done|]; simpl.
  apply IH; [|done]. intros y s'' Hy. apply Hbody. by right.
Qed.

(** ** [range] *)

Lemma elem_of_range n x : x ∈ range n ↔ 0 ≤ x < Z.of_nat n.
Proof.
  unfold range. rewrite list_elem_of_fmap. split.
  - intros (k & -> & Hk). apply elem_of_seq in Hk. lia.
  - intros Hx. exists (Z.to_nat x). split; [lia|]. apply elem_of_seq. lia.
Qed.

Lemma NoDup_range n : NoDup (range n).
Proof.
  unfold range. apply NoDup_fmap; [apply _|apply NoDup_seq].
Qed.

Lemma length_range n : length (range n) = n.
Proof. unfold range. by rewrite length_fmap, length_seq. Qed.

(** ** Indexing *)

Lemma norm_index_nonneg len k :
  0 ≤ k < Z.of_nat len → norm_index len k = Ok (Z.to_nat k).
Proof. intros H. unfold norm_index. by rewrite decide_True. Qed.

Lemma norm_index_Raise len k e :
  norm_index len k = Raise e ↔
  (k < - Z.of_nat len ∨ Z.of_nat len ≤ k) ∧ e = index_exn len k.
Proof.
  unfold norm_index. repeat case_decide; split; try done; try lia.
  - intros [= <-]. split; [lia|done].
  - by intros [_ ->].
Qed.

Lemma norm_index_wrapped len k :
  - Z.of_nat len ≤ k < Z.of_nat len → ∃ r, norm_index len k = Ok r.
Proof. intros Hk. unfold norm_index. repeat case_decide; eauto; lia. Qed.

Lemma index_exn_not_KeyError len k : index_exn len k ≠ KeyError.
Proof. unfold index_exn. by case_decide. Qed.

(** An index as large as the axis is long is never in [2^63, 2^64) while
    the axis is shorter than 2^63. *)
Lemma index_exn_small len k :
  k < 2 ^ 63 ∨ 2 ^ 63 ≤ Z.of_nat len → index_exn len k = IndexError.
Proof. intros H. unfold index_exn. rewrite decide_False; [done|lia]. Qed.

Lemma getitem_nonneg m r c :
  0 ≤ r < Z.of_nat (shape0 m) → 0 ≤ c < Z.of_nat (shape1 m) →
  getitem m r c = Ok (data m (Z.to_nat r) (Z.to_nat c)).
Proof.
  intros Hr Hc. unfold getitem. by rewrite !norm_index_nonneg.
Qed.

Lemma getitem_row m row r c :
  norm_index (shape0 m) row = Ok r → 0 ≤ c < Z.of_nat (shape1 m) →
  getitem m row c = Ok (data m r (Z.to_nat c)).
Proof.
  intros Hr Hc. unfold getitem. rewrite Hr. simpl.
  by rewrite norm_index_nonneg.
Qed.

Lemma getitem1_nonneg (a : list Z) k x :
  0 ≤ k → a !! Z.to_nat k = Some x → getitem1 a k = Ok x.
Proof.
  intros Hk Hx. unfold getitem1.
  rewrite norm_index_nonneg; simpl; [by rewrite Hx|].
  apply lookup_lt_Some in Hx. lia.
Qed.

Lemma setitem1_nonneg (a : list Z) k v :
  0 ≤ k < Z.of_nat (length a) → setitem1 a k v = Ok (<[Z.to_nat k := v]> a).
Proof. intros Hk. unfold setitem1. by rewrite norm_index_nonneg. Qed.

(** ** [adj] *)

(** The columns of row [r] that hold a 1. *)
Definition row_ones (m : ndarray) (r : nat) : list Z :=
  filter (λ col, data m r (Z.to_nat col) = 1) (range (shape1 m)).

Lemma adj_loop_Ok m row r xs temp :
  norm_index (shape0 m) row = Ok r →
  Forall (λ col, 0 ≤ col < Z.of_nat (shape1 m)) xs →
  for_each xs (λ col temp,
    x ← getitem m row col;
    Ok (if decide (x = 1) then temp ++ [col] else temp)) temp
  = Ok (temp ++ filter (λ col, data m r (Z.to_nat col) = 1) xs).
Proof.
  intros Hr Hxs. revert temp.
  induction Hxs as [|col xs Hcol _ IH]; intros temp; simpl.
  - by rewrite app_nil_r.
  - cbn [for_each]. rewrite (getitem_row m row r) by done. simpl.
    rewrite IH. rewrite filter_cons. case_decide.
    + by rewrite <-app_assoc.
    + done.
Qed.

Lemma adj_Ok m row r :
  norm_index (shape0 m) row = Ok r → adj m row = Ok (row_ones m r).
Proof.
  intros Hr. unfold adj, row_ones.
  rewrite (adj_loop_Ok m row r); [done|done|].
  apply Forall_forall. intros x. apply elem_of_range.
Qed.

Lemma adj_Raise m row e :
  norm_index (shape0 m) row = Raise e → shape1 m ≠ 0%nat →
  adj m row = Raise e.
Proof.
  intros Hr Hn. unfold adj.
  destruct (shape1 m) as [|k]; [done|].
  unfold range. simpl. unfold getitem. by rewrite Hr.
Qed.

Lemma adj_empty m row : shape1 m = 0%nat → adj m row = Ok [].
Proof. intros H. unfold adj. by rewrite H. Qed.

Lemma elem_of_row_ones m r x :
  x ∈ row_ones m r ↔
  0 ≤ x < Z.of_nat (shape1 m) ∧ data m r (Z.to_nat x) = 1.
Proof.
  unfold row_ones. rewrite list_elem_of_filter, elem_of_range. tauto.
Qed.

Lemma NoDup_row_ones m r : NoDup (row_ones m r).
Proof. apply NoDup_filter, NoDup_range. Qed.

(** A loop that only appends to its accumulator. *)
Lemma for_each_append {X Y} (g : X → list Y) (xs : list X)
    (body : X → list Y → result (list Y)) acc :
  (∀ x acc, x ∈ xs → body x acc = Ok (acc ++ g x)) →
  for_each xs body acc = Ok (acc ++ (xs ≫= g)).
Proof.
  revert acc; induction xs as [|x xs IH]; intros acc Hbody; simpl.
  - by rewrite app_nil_r.
  - rewrite Hbody by left. simpl. rewrite IH.
    + by rewrite <-app_assoc.
    + intros y acc' Hy. apply Hbody. by right.
Qed.

(** A loop that writes [f x] into slot [x] of an array, for [x] running
    over a segment of the indices. *)
Lemma for_each_fill (f : Z → Z) (len a : nat) (pre mid post : list Z) :
  length pre = a → length mid = len →
  for_each (Z.of_nat <$> seq a len) (λ x tmpMap, setitem1 tmpMap x (f x))
           (pre ++ mid ++ post)
  = Ok (pre ++ (f <$> (Z.of_nat <$> seq a len)) ++ post).
Proof.
  revert a pre mid. induction len as [|len IH]; intros a pre mid Ha Hm.
  - by destruct mid.
  - destruct mid as [|m0 mid]; [done|]. simpl in Hm.
    cbn [seq fmap list_fmap for_each].
    rewrite setitem1_nonneg by (rewrite !length_app; simpl; lia).
    rewrite Nat2Z.id. cbn [mbind result_bind].
    replace (<[a:=f (Z.of_nat a)]> (pre ++ (m0 :: mid) ++ post))
      with ((pre ++ [f (Z.of_nat a)]) ++ mid ++ post).
    + rewrite (IH (S a) (pre ++ [f (Z.of_nat a)]) mid);
        [|rewrite length_app; simpl; lia|lia].
      by rewrite <-!app_assoc.
    + subst a. rewrite insert_app_r_alt, Nat.sub_diag by lia. simpl.
      by rewrite <-app_assoc.
Qed.

(** ** The model of the solver under a fixed game *)

Section solver_facts.
Context {Act : Type} (game : Game Act) (G T : ndarray) (i : Z).

(** *** Preprocessing *)

Definition removed_by (iter : Z) : list Z :=
  if decide (data G (Z.to_nat iter) (Z.to_nat iter) = 1 ∧ turn game iter = 2)
  then range (shape0 G) ≫= (λ iter1,
         if decide (data G (Z.to_nat iter1) (Z.to_nat iter) = 1
                    ∧ turn game iter = 2)
         then [iter1] else [])
  else [].

Lemma removed_states_Ok :
  (shape0 G ≤ shape1 G)%nat →
  removed_states game G = Ok (range (shape0 G) ≫= removed_by).
Proof.
  intros Hsq. unfold removed_states.
  rewrite (for_each_append removed_by); [done|].
  intros iter Removed Hiter%elem_of_range.
  rewrite getitem_nonneg by lia. simpl. unfold removed_by.
  case_decide; [|by rewrite app_nil_r].
  apply for_each_append.
  intros iter1 Removed1 Hiter1%elem_of_range.
  rewrite getitem_nonneg by lia. simpl.
  case_decide; [done|by rewrite app_nil_r].
Qed.

Lemma elem_of_removed v1 :
  v1 ∈ range (shape0 G) ≫= removed_by ↔
  ∃ v, 0 ≤ v < Z.of_nat (shape0 G) ∧ 0 ≤ v1 < Z.of_nat (shape0 G) ∧
       data G (Z.to_nat v) (Z.to_nat v) = 1 ∧ turn game v = 2 ∧
       data G (Z.to_nat v1) (Z.to_nat v) = 1.
Proof.
  rewrite list_elem_of_bind. split.
  - intros (v & Hv1 & Hv%elem_of_range). exists v. unfold removed_by in Hv1.
    case_decide as Hc; [|by apply elem_of_nil in Hv1].
    apply list_elem_of_bind in Hv1 as (w & Hw & Hwr%elem_of_range).
    case_decide as Hc'; [|by apply elem_of_nil in Hw].
    apply list_elem_of_singleton in Hw as ->. tauto.
  - intros (v & Hv & Hv1 & Hloop & Hturn & Hedge). exists v.
    split; [|by apply elem_of_range].
    unfold removed_by. rewrite decide_True by done.
    apply list_elem_of_bind. exists v1. split; [|by apply elem_of_range].
    rewrite decide_True by done. by left.
Qed.

(** *** The counter array *)

Definition tmpMap0 (A : list Z) : list Z :=
  (λ x, if decide (x ∈ A) then 0 else -1) <$> range (shape0 G).

Lemma init_tmpMap_Ok A : init_tmpMap G A = Ok (tmpMap0 A).
Proof.
  unfold init_tmpMap, tmpMap0, range.
  pose proof (for_each_fill (λ x, if decide (x ∈ A) then 0 else -1)
                (shape0 G) 0 [] (replicate (shape0 G) 0) []) as H.
  rewrite !app_nil_r in H. simpl in H. apply H; [done|].
  by rewrite length_replicate.
Qed.

Lemma length_tmpMap0 A : length (tmpMap0 A) = shape0 G.
Proof. unfold tmpMap0. by rewrite length_fmap, length_range. Qed.

Lemma lookup_tmpMap0 A x :
  0 ≤ x < Z.of_nat (shape0 G) →
  tmpMap0 A !! Z.to_nat x = Some (if decide (x ∈ A) then 0 else -1).
Proof.
  intros Hx. unfold tmpMap0, range.
  rewrite !list_lookup_fmap, lookup_seq_lt by lia. simpl.
  by rewrite Z2Nat.id by lia.
Qed.

(** *** One visit *)

Lemma count_adj_length Removed succs :
  count_adj Removed succs
  = Z.of_nat (length (filter (λ x, x ∉ Removed) succs)) - 1.
Proof.
  unfold count_adj.
  cut (∀ c, foldl (λ adj_counter x,
               if decide (x ∈ Removed) then adj_counter else adj_counter + 1)
             c succs
           = c + Z.of_nat (length (filter (λ x, x ∉ Removed) succs))).
  { intros H. rewrite H. lia. }
  induction succs as [|x succs IH]; intros c; simpl; [lia|].
  rewrite IH, filter_cons. repeat case_decide; simpl; try done; lia.
Qed.

(** The successors of [v0] that are outside [Removed]. *)
Definition nonremoved_succs (Removed : list Z) (v0 : Z) : list Z :=
  filter (λ x, x ∉ Removed) (row_ones G (Z.to_nat v0)).

(** What a visit does to the counter [t] of [v0], and whether it appends
    [v0] to the worklist. *)
Definition step_cell (Removed : list Z) (v0 t : Z) : Z * bool :=
  if decide (v0 ∈ Removed) then (t, false) else
  let '(t1, app1) :=
    if decide (t = -1) then
      if decide (turn game v0 = i) then (0, true)
      else
        let c := Z.of_nat (length (nonremoved_succs Removed v0)) - 1 in
        (c, bool_decide (c = 0))
    else (t, false) in
  if decide (turn game v0 = 2 ∧ t1 > 0)
  then (t1 - 1, bool_decide (t1 - 1 = 0))
  else (t1, app1).

Definition visit_pure (Removed : list Z) (st : list Z * list Z) (v0 : Z)
  : list Z * list Z :=
  match st.2 !! Z.to_nat v0 with
  | Some t =>
      let '(t', app) := step_cell Removed v0 t in
      (if app then st.1 ++ [v0] else st.1, <[Z.to_nat v0 := t']> st.2)
  | None => st
  end.

Lemma visit_eq Removed v0 st :
  length st.2 = shape0 G → 0 ≤ v0 < Z.of_nat (shape0 G) →
  visit game G i Removed v0 st = Ok (visit_pure Removed st v0).
Proof.
  destruct st as [A tmpMap]. simpl. intros Hlen Hv0.
  destruct (lookup_lt_is_Some_2 tmpMap (Z.to_nat v0)) as [t Ht]; [lia|].
  unfold visit, visit_pure, step_cell. simpl. rewrite Ht.
  case_decide as HR. { by rewrite list_insert_id. }
  rewrite (getitem1_nonneg _ _ t) by (done || lia).
  cbn [mbind result_bind].
  assert (Hget : ∀ x, getitem1 (<[Z.to_nat v0:=x]> tmpMap) v0 = Ok x).
  { intros x. apply getitem1_nonneg; [lia|].
    apply list_lookup_insert_eq. lia. }
  assert (Hset : ∀ (a : list Z) x, length a = shape0 G →
            setitem1 a v0 x = Ok (<[Z.to_nat v0:=x]> a)).
  { intros a x Ha. apply setitem1_nonneg. lia. }
  assert (Hlen' : ∀ x, length (<[Z.to_nat v0:=x]> tmpMap) = shape0 G).
  { intros x. by rewrite length_insert. }
  destruct (decide (t = -1)) as [->|Ht1];
    [destruct (decide (turn game v0 = i)) as [Hi|Hi]|].
  - (* first visit, owned by the attracting player *)
    rewrite Hset by done. cbn [mbind result_bind].
    rewrite (decide_False (P := _ ∧ _)) by lia.
    destruct (decide (turn game v0 = 2)); [|done].
    rewrite Hget. cbn [mbind result_bind].
    by rewrite (decide_False (P := 0 > 0)) by lia.
  - (* first visit, owned by the opponent *)
    rewrite (adj_Ok G v0 (Z.to_nat v0)) by (apply norm_index_nonneg; lia).
    cbn [mbind result_bind]. rewrite count_adj_length.
    fold (nonremoved_succs Removed v0).
    set (c := Z.of_nat (length (nonremoved_succs Removed v0)) - 1).
    rewrite Hset by done. cbn [mbind result_bind].
    destruct (decide (turn game v0 = 2 ∧ c > 0)) as [[H2 Hc]|Hn].
    + rewrite (decide_True (P := turn game v0 = 2)) by done.
      rewrite Hget. cbn [mbind result_bind].
      rewrite (decide_True (P := c > 0)) by done.
      rewrite Hset by done. cbn [mbind result_bind].
      rewrite list_insert_insert_eq, Hget. cbn [mbind result_bind].
      rewrite (decide_False (P := c = 0)) by lia.
      by destruct (decide (c - 1 = 0));
        [rewrite bool_decide_eq_true_2|rewrite bool_decide_eq_false_2].
    + assert (Hres : (if decide (c = 0) then A ++ [v0] else A)
                     = (if bool_decide (c = 0) then A ++ [v0] else A)).
      { by destruct (decide (c = 0));
          [rewrite bool_decide_eq_true_2|rewrite bool_decide_eq_false_2]. }
      destruct (decide (turn game v0 = 2)) as [H2|H2]; [|by rewrite Hres].
      rewrite Hget. cbn [mbind result_bind].
      rewrite (decide_False (P := c > 0)) by tauto. by rewrite Hres.
  - (* already seen *)
    cbn [mbind result_bind].
    destruct (decide (turn game v0 = 2 ∧ t > 0)) as [[H2 Hc]|Hn].
    + rewrite (decide_True (P := turn game v0 = 2)) by done.
      rewrite (getitem1_nonneg _ _ t) by (done || lia).
      cbn [mbind result_bind].
      rewrite (decide_True (P := t > 0)) by done.
      rewrite Hset by done. cbn [mbind result_bind].
      rewrite Hget. cbn [mbind result_bind].
      by destruct (decide (t - 1 = 0));
        [rewrite bool_decide_eq_true_2|rewrite bool_decide_eq_false_2].
    + rewrite list_insert_id by done.
      destruct (decide (turn game v0 = 2)) as [H2|H2]; [|done].
      rewrite (getitem1_nonneg _ _ t) by (done || lia).
      cbn [mbind result_bind].
      by rewrite (decide_False (P := t > 0)) by tauto.
Qed.

Lemma step_cell_zero Removed v0 : step_cell Removed v0 0 = (0, false).
Proof.
  unfold step_cell. case_decide; [done|].
  rewrite (decide_False (P := (0 = -1))) by lia.
  by rewrite decide_False by lia.
Qed.

(** A state is appended exactly when its counter becomes 0, and only a
    state outside [Removed] whose counter was not 0 can be appended. *)
Lemma step_cell_append Removed v0 t t' :
  step_cell Removed v0 t = (t', true) → (v0 ∉ Removed) ∧ t ≠ 0 ∧ t' = 0.
Proof.
  unfold step_cell. repeat case_decide; intros Heq; simplify_eq;
    repeat match goal with
           | H : bool_decide _ = true |- _ => apply bool_decide_eq_true_1 in H
           end;
    (split; [done|lia]).
Qed.

Lemma visit_pure_cases Removed A tmpMap v0 :
  (Z.to_nat v0 < length tmpMap)%nat →
  ∃ t t' app,
    tmpMap !! Z.to_nat v0 = Some t ∧ step_cell Removed v0 t = (t', app) ∧
    visit_pure Removed (A, tmpMap) v0
    = (if app then A ++ [v0] else A, <[Z.to_nat v0 := t']> tmpMap).
Proof.
  intros Hv0.
  destruct (lookup_lt_is_Some_2 tmpMap (Z.to_nat v0)) as [t Ht]; [done|].
  destruct (step_cell Removed v0 t) as [t' app] eqn:Hstep.
  exists t, t', app. unfold visit_pure. simpl. by rewrite Ht, Hstep.
Qed.

Lemma visit_pure_length Removed st v0 :
  length (visit_pure Removed st v0).2 = length st.2.
Proof.
  unfold visit_pure. destruct (st.2 !! Z.to_nat v0); [|done].
  destruct (step_cell Removed v0 z). simpl. by rewrite length_insert.
Qed.

Lemma visit_pure_grow Removed st v0 :
  (visit_pure Removed st v0).1 = st.1 ∨
  (visit_pure Removed st v0).1 = st.1 ++ [v0].
Proof.
  unfold visit_pure. destruct (st.2 !! Z.to_nat v0); [|by left].
  destruct (step_cell Removed v0 z) as [t' []]; simpl; auto.
Qed.

(** *** The worklist only grows *)

Lemma visit_prefix Removed v0 st st' :
  visit game G i Removed v0 st = Ok st' → st.1 `prefix_of` st'.1.
Proof.
  destruct st as [A tmpMap]. unfold visit. simpl.
  case_decide; [by intros [= <-]|].
  intros (t & _ & (st1 & Hst1 & H2)%bind_Ok)%bind_Ok.
  assert (H1 : A `prefix_of` st1.1).
  { clear H2.
    destruct (decide (t = -1)); [destruct (decide (turn game v0 = i))|].
    - apply bind_Ok in Hst1 as (tm' & _ & [= <-]). by apply prefix_app_r.
    - apply bind_Ok in Hst1 as (succs & _ & (tm' & _ & [= <-])%bind_Ok).
      simpl. case_decide; [by apply prefix_app_r|done].
    - by injection Hst1 as <-. }
  etrans; [exact H1|]. clear Hst1 H1. destruct st1 as [A1 tmpMap1]. simpl.
  case_decide; [|by injection H2 as <-].
  apply bind_Ok in H2 as (t2 & _ & H2).
  case_decide; [|by injection H2 as <-].
  apply bind_Ok in H2 as (tm' & _ & (t' & _ & [= <-])%bind_Ok).
  simpl. case_decide; [by apply prefix_app_r|done].
Qed.

Lemma for_each_visit_prefix Removed preds st st' :
  for_each preds (visit game G i Removed) st = Ok st' →
  st.1 `prefix_of` st'.1.
Proof.
  revert st. induction preds as [|v0 preds IH]; intros st; simpl.
  - by intros [= <-].
  - intros (st1 & H1 & H2)%bind_Ok.
    etrans; [by eapply visit_prefix|by apply IH].
Qed.

Lemma iteration_prefix Removed index st st' :
  iteration game G T i Removed index st = Ok st' → st.1 `prefix_of` st'.1.
Proof.
  unfold iteration. destruct (st.1 !! index); [|done].
  intros (preds & _ & H)%bind_Ok. by eapply for_each_visit_prefix.
Qed.

(** *** The worklist invariant *)

Section square.
Context (n : nat).
Hypothesis HG0 : shape0 G = n.
Hypothesis HG1 : shape1 G = n.
Hypothesis HT0 : shape0 T = n.
Hypothesis HT1 : shape1 T = n.

(** The worklist is [final] followed by the appended states; these are
    pairwise distinct indices outside [Removed] whose counter is 0. *)
Definition worklist_inv (final Removed : list Z) (st : list Z * list Z)
  : Prop :=
  length st.2 = n ∧
  ∃ new, st.1 = final ++ new ∧ NoDup new ∧
    ∀ v, v ∈ new →
      0 ≤ v < Z.of_nat n ∧ (v ∉ Removed) ∧ st.2 !! Z.to_nat v = Some 0.

Lemma worklist_inv_init final Removed :
  worklist_inv final Removed (final, tmpMap0 final).
Proof.
  split; simpl; [by rewrite length_tmpMap0|].
  exists []. rewrite app_nil_r. split; [done|]. split; [constructor|].
  intros v Hv. by apply elem_of_nil in Hv.
Qed.

Lemma visit_pure_inv final Removed st v0 :
  0 ≤ v0 < Z.of_nat n →
  worklist_inv final Removed st →
  worklist_inv final Removed (visit_pure Removed st v0).
Proof.
  destruct st as [A tmpMap]. intros Hv0 (Hlen & new & HA & Hnd & Hnew).
  simpl in *.
  destruct (visit_pure_cases Removed A tmpMap v0)
    as (t & t' & app & Ht & Hstep & ->); [lia|].
  split; simpl; [by rewrite length_insert|].
  assert (Hkeep : ∀ v, v ∈ new →
            <[Z.to_nat v0:=t']> tmpMap !! Z.to_nat v = Some 0).
  { intros v Hv. destruct (Hnew v Hv) as (Hr & _ & H0).
    destruct (decide (v = v0)) as [->|Hne].
    - rewrite Ht in H0. injection H0 as ->.
      rewrite step_cell_zero in Hstep. injection Hstep as <- <-.
      apply list_lookup_insert_eq. lia.
    - rewrite list_lookup_insert_ne by lia. done. }
  destruct app.
  - apply step_cell_append in Hstep as (HR & Ht0 & ->).
    exists (new ++ [v0]). rewrite HA, app_assoc. split; [done|]. split.
    + apply NoDup_app. split; [done|]. split; [|apply NoDup_singleton].
      intros v Hv ->%list_elem_of_singleton.
      destruct (Hnew v0 Hv) as (_ & _ & H0). congruence.
    + intros v [Hv| ->%list_elem_of_singleton]%elem_of_app.
      * destruct (Hnew v Hv) as (? & ? & _). auto.
      * repeat split; try done; try lia.
        apply list_lookup_insert_eq. lia.
  - exists new. split; [done|]. split; [done|].
    intros v Hv. destruct (Hnew v Hv) as (? & ? & _). auto.
Qed.

Lemma foldl_visit_pure_inv final Removed st preds :
  Forall (λ v0, 0 ≤ v0 < Z.of_nat n) preds →
  worklist_inv final Removed st →
  worklist_inv final Removed (foldl (visit_pure Removed) st preds).
Proof.
  intros Hpreds. revert st.
  induction Hpreds as [|v0 preds Hv0 _ IH]; intros st Hst; simpl; [done|].
  by apply IH, visit_pure_inv.
Qed.

Lemma foldl_visit_pure_grow Removed st preds :
  ∃ l, (foldl (visit_pure Removed) st preds).1 = st.1 ++ l ∧
       ∀ x, x ∈ l → x ∈ preds.
Proof.
  revert st. induction preds as [|v0 preds IH]; intros st; simpl.
  - exists []. rewrite app_nil_r. split; [done|].
    intros x Hx. by apply elem_of_nil in Hx.
  - destruct (IH (visit_pure Removed st v0)) as (l & -> & Hl).
    destruct (visit_pure_grow Removed st v0) as [-> | ->].
    + exists l. split; [done|]. intros x Hx. right. by apply Hl.
    + exists ([v0] ++ l). rewrite app_assoc. split; [done|].
      intros x [->%list_elem_of_singleton|Hx]%elem_of_app;
        [left|right; by apply Hl].
Qed.

(** The appended states are distinct indices below [n], so the worklist
    never grows beyond [len(final) + n]. *)
Lemma worklist_inv_length final Removed st :
  worklist_inv final Removed st →
  (length st.1 ≤ length final + n)%nat.
Proof.
  intros (_ & new & -> & Hnd & Hnew). rewrite length_app.
  apply Nat.add_le_mono_l.
  rewrite <-(length_range n). apply submseteq_length, NoDup_submseteq.
  - done.
  - intros v Hv. apply elem_of_range. by apply Hnew.
Qed.

(** *** One iteration of the [while] loop *)

Lemma iteration_Ok Removed index st v r :
  length st.2 = n → st.1 !! index = Some v → norm_index n v = Ok r →
  iteration game G T i Removed index st
  = Ok (foldl (visit_pure Removed) st (row_ones T r)).
Proof.
  intros Hlen Hv Hr. unfold iteration. rewrite Hv.
  rewrite (adj_Ok T v r) by (by rewrite HT0). cbn [mbind result_bind].
  apply (for_each_foldl (λ st, length st.2 = n)); [|done].
  intros v0 st' [Hv0 _]%elem_of_row_ones Hst'. split.
  - apply visit_eq; lia.
  - by rewrite visit_pure_length.
Qed.

Lemma iteration_Raise Removed index st v :
  st.1 !! index = Some v → v < - Z.of_nat n ∨ Z.of_nat n ≤ v →
  n ≠ 0%nat →
  iteration game G T i Removed index st = Raise (index_exn n v).
Proof.
  intros Hv Hout Hn. unfold iteration. rewrite Hv.
  rewrite (adj_Raise T v (index_exn n v)); [done| |lia].
  apply norm_index_Raise. by rewrite HT0.
Qed.

Lemma iteration_empty Removed index st v :
  st.1 !! index = Some v → n = 0%nat →
  iteration game G T i Removed index st = Ok st.
Proof.
  intros Hv Hn. unfold iteration. rewrite Hv.
  rewrite adj_empty by lia. done.
Qed.

Lemma row_ones_range r :
  Forall (λ v0, 0 ≤ v0 < Z.of_nat n) (row_ones T r).
Proof.
  apply Forall_forall. intros v0 [Hv0 _]%elem_of_row_ones. lia.
Qed.

(** An iteration raises, or it extends the worklist and keeps the
    invariant. *)
Lemma iteration_total final Removed index st :
  worklist_inv final Removed st → (index < length st.1)%nat →
  (∃ e, e ≠ KeyError ∧ iteration game G T i Removed index st = Raise e) ∨
  (∃ st', iteration game G T i Removed index st = Ok st' ∧
          worklist_inv final Removed st' ∧ ∃ l, st'.1 = st.1 ++ l).
Proof.
  intros Hinv Hidx.
  destruct (lookup_lt_is_Some_2 st.1 index) as [v Hv]; [done|].
  destruct (norm_index n v) as [r|e] eqn:Hr.
  - right. eexists. split; [by eapply iteration_Ok, Hr; [apply Hinv|]|].
    split; [apply foldl_visit_pure_inv; [apply row_ones_range|done]|].
    destruct (foldl_visit_pure_grow Removed st (row_ones T r)) as (l & ? & _).
    eauto.
  - apply norm_index_Raise in Hr as [Hout ->].
    destruct (decide (n = 0%nat)) as [Hn|Hn].
    + right. exists st. split; [by eapply iteration_empty|].
      split; [done|]. exists []. by rewrite app_nil_r.
    + left. exists (index_exn n v).
      split; [apply index_exn_not_KeyError|by eapply iteration_Raise].
Qed.

(** *** The [while] loop *)

(** The loop runs at most [len(final) + n] iterations. *)
Lemma while_loop_enough_fuel final Removed fuel index st :
  worklist_inv final Removed st → (index ≤ length st.1)%nat →
  (length final + n < fuel + index)%nat →
  ∃ r, while_loop game G T i fuel Removed index st = Some r ∧
       r ≠ Raise KeyError.
Proof.
  revert index st. induction fuel as [|fuel IH]; intros index st Hinv Hle Hf.
  - apply worklist_inv_length in Hinv. lia.
  - simpl. case_decide as Hidx; [|eauto].
    destruct (iteration_total final Removed index st Hinv Hidx)
      as [(e & He & ->)|(st' & -> & Hinv' & l & Hl)].
    { exists (Raise e). split; [done|congruence]. }
    apply IH; [done| |lia]. rewrite Hl, length_app. lia.
Qed.

(** Invariants of the loop: what holds initially and is kept by every
    iteration that does not raise holds when the loop returns, and by
    then the cursor has passed the end of the worklist. *)
Lemma while_loop_ind (P : nat → list Z * list Z → Prop) Removed :
  (∀ index st st',
     P index st → (index < length st.1)%nat →
     iteration game G T i Removed index st = Ok st' → P (S index) st') →
  ∀ fuel index st A,
    P index st →
    while_loop game G T i fuel Removed index st = Some (Ok A) →
    ∃ index' tmpMap, (length A ≤ index')%nat ∧ P index' (A, tmpMap).
Proof.
  intros Hstep. induction fuel as [|fuel IH]; intros index st A HP; simpl.
  - done.
  - case_decide as Hidx.
    + destruct (iteration game G T i Removed index st) as [st'|e] eqn:Hit;
        [|done].
      apply IH. by eapply Hstep.
    + intros [= <-]. exists index, st.2. split; [lia|].
      by destruct st.
Qed.

Definition Removed_states : list Z := range (shape0 G) ≫= removed_by.

Lemma solver_fuel_eq fuel final :
  solver_fuel game G T final i fuel
  = while_loop game G T i fuel Removed_states 0 (final, tmpMap0 final).
Proof.
  unfold solver_fuel. rewrite removed_states_Ok by lia.
  by rewrite init_tmpMap_Ok.
Qed.

(** The solver always comes to an end, with a worklist or with an
    exception. *)
Lemma solver_total final :
  ∃ r, solver game G T final i = Some r ∧ r ≠ Raise KeyError.
Proof.
  unfold solver. rewrite solver_fuel_eq.
  eapply while_loop_enough_fuel.
  - apply worklist_inv_init.
  - simpl. lia.
  - rewrite HG0. lia.
Qed.

(** More fuel does not change a result. *)
Lemma while_loop_fuel_mono Removed fuel fuel' index st r :
  while_loop game G T i fuel Removed index st = Some r →
  (fuel ≤ fuel')%nat →
  while_loop game G T i fuel' Removed index st = Some r.
Proof.
  revert fuel' index st.
  induction fuel as [|fuel IH]; intros fuel' index st; simpl; [done|].
  intros Hr Hle. destruct fuel' as [|fuel']; [lia|]. simpl.
  case_decide; [|done].
  destruct (iteration game G T i Removed index st); [|done].
  apply IH; [done|lia].
Qed.

(** *** Target sets of declared states *)

Section declared.
Context (final : list Z).
Hypothesis Hfinal : Forall (λ s, 0 ≤ s < Z.of_nat n) final.

Lemma worklist_inv_range Removed st :
  worklist_inv final Removed st →
  Forall (λ s, 0 ≤ s < Z.of_nat n) st.1.
Proof.
  intros (_ & new & -> & _ & Hnew). apply Forall_app. split; [done|].
  apply Forall_forall. intros v Hv. by apply Hnew.
Qed.

(** With declared targets no iteration raises: the loop returns a
    worklist, on which every invariant of the iterations holds. *)
Lemma while_loop_Ok (P : nat → list Z * list Z → Prop) Removed :
  (∀ index st v,
     worklist_inv final Removed st → st.1 !! index = Some v →
     0 ≤ v < Z.of_nat n → P index st →
     P (S index)
       (foldl (visit_pure Removed) st (row_ones T (Z.to_nat v)))) →
  ∀ fuel index st,
    worklist_inv final Removed st → (index ≤ length st.1)%nat →
    (length final + n < fuel + index)%nat → P index st →
    ∃ A tmpMap,
      while_loop game G T i fuel Removed index st = Some (Ok A) ∧
      worklist_inv final Removed (A, tmpMap) ∧
      P (length A) (A, tmpMap).
Proof.
  intros Hstep.
  induction fuel as [|fuel IH]; intros index st Hinv Hle Hf HP.
  - apply worklist_inv_length in Hinv. lia.
  - simpl. case_decide as Hidx.
    + destruct (lookup_lt_is_Some_2 st.1 index) as [v Hv]; [done|].
      assert (Hvr : 0 ≤ v < Z.of_nat n).
      { pose proof (worklist_inv_range _ _ Hinv) as Hr.
        rewrite Forall_lookup in Hr. by eapply Hr. }
      rewrite (iteration_Ok Removed index st v (Z.to_nat v));
        [|apply Hinv|done|by apply norm_index_nonneg].
      apply IH.
      * apply foldl_visit_pure_inv; [apply row_ones_range|done].
      * destruct (foldl_visit_pure_grow Removed st
                    (row_ones T (Z.to_nat v))) as (l & -> & _).
        rewrite length_app. lia.
      * lia.
      * by apply Hstep.
    + exists st.1, st.2. split; [done|].
      replace (length st.1) with index by lia. by destruct st.
Qed.

Lemma solver_Ok (P : nat → list Z * list Z → Prop) :
  P 0%nat (final, tmpMap0 final) →
  (∀ index st v,
     worklist_inv final Removed_states st → st.1 !! index = Some v →
     0 ≤ v < Z.of_nat n → P index st →
     P (S index)
       (foldl (visit_pure Removed_states) st
              (row_ones T (Z.to_nat v)))) →
  ∃ A tmpMap,
    solver game G T final i = Some (Ok A) ∧
    worklist_inv final Removed_states (A, tmpMap) ∧
    P (length A) (A, tmpMap).
Proof.
  intros H0 Hstep. unfold solver. rewrite solver_fuel_eq.
  apply while_loop_Ok; try done.
  - apply worklist_inv_init.
  - simpl. lia.
  - rewrite HG0. lia.
Qed.

(** **** Every appended state has an edge of [T] from an earlier
    state of the worklist, one the cursor has already passed. *)
Definition witnessed (index : nat) (st : list Z * list Z) : Prop :=
  ∀ k s, (length final ≤ k)%nat → st.1 !! k = Some s →
    ∃ j t, (j < k)%nat ∧ (j < index)%nat ∧ st.1 !! j = Some t ∧
           0 ≤ t < Z.of_nat n ∧ 0 ≤ s < Z.of_nat n ∧
           data T (Z.to_nat t) (Z.to_nat s) = 1.

Lemma witnessed_init : witnessed 0 (final, tmpMap0 final).
Proof.
  intros k s Hk Hs. simpl in Hs. apply lookup_lt_Some in Hs. lia.
Qed.

Lemma witnessed_step Removed index st v :
  worklist_inv final Removed st → st.1 !! index = Some v →
  0 ≤ v < Z.of_nat n → witnessed index st →
  witnessed (S index)
    (foldl (visit_pure Removed) st (row_ones T (Z.to_nat v))).
Proof.
  intros Hinv Hv Hvr Hw k s Hk.
  destruct (foldl_visit_pure_grow Removed st (row_ones T (Z.to_nat v)))
    as (l & -> & Hl).
  intros Hs. pose proof (lookup_lt_Some _ _ _ Hv) as Hidx.
  destruct (decide (k < length st.1)%nat) as [Hlt|Hge].
  - rewrite lookup_app_l in Hs by done.
    destruct (Hw k s Hk Hs) as (j & t & Hjk & Hji & Ht & Hrest).
    exists j, t. rewrite lookup_app_l by lia.
    split; [done|]. split; [lia|]. done.
  - rewrite lookup_app_r in Hs by lia.
    apply list_elem_of_lookup_2, Hl, elem_of_row_ones in Hs as [Hsr Hone].
    exists index, v. rewrite lookup_app_l by done.
    repeat split; try done; lia.
Qed.

(** **** The counter of every state of the worklist is 0, and the
    appended states are pairwise distinct and are no targets. *)
Definition settled (st : list Z * list Z) : Prop :=
  (∀ v, v ∈ st.1 → st.2 !! Z.to_nat v = Some 0) ∧
  ∃ new, st.1 = final ++ new ∧ NoDup new ∧ ∀ v, v ∈ new → v ∉ final.

Lemma settled_init : settled (final, tmpMap0 final).
Proof.
  split; simpl.
  - intros v Hv. rewrite lookup_tmpMap0.
    + by rewrite decide_True.
    + rewrite HG0. rewrite Forall_forall in Hfinal. by apply Hfinal.
  - exists []. rewrite app_nil_r. split; [done|]. split; [constructor|].
    intros v Hv. by apply elem_of_nil in Hv.
Qed.

Lemma visit_pure_settled Removed st v0 :
  0 ≤ v0 < Z.of_nat n → length st.2 = n →
  Forall (λ s, 0 ≤ s < Z.of_nat n) st.1 →
  settled st → settled (visit_pure Removed st v0).
Proof.
  destruct st as [A tmpMap]. simpl.
  intros Hv0 Hlen Hr [Hz (new & HA & Hnd & Hnew)].
  simpl in *. rewrite Forall_forall in Hr.
  destruct (visit_pure_cases Removed A tmpMap v0)
    as (t & t' & app & Ht & Hstep & ->); [lia|].
  assert (Hkeep : ∀ v, v ∈ A →
            <[Z.to_nat v0:=t']> tmpMap !! Z.to_nat v = Some 0).
  { intros v Hv. pose proof (Hz v Hv) as H0. pose proof (Hr v Hv).
    destruct (decide (v = v0)) as [->|Hne].
    - rewrite Ht in H0. injection H0 as ->.
      rewrite step_cell_zero in Hstep. injection Hstep as <- <-.
      apply list_lookup_insert_eq. lia.
    - rewrite list_lookup_insert_ne by lia. done. }
  destruct app; split; simpl; try done; [| |by exists new].
  - apply step_cell_append in Hstep as (_ & _ & ->).
    intros v [Hv| ->%list_elem_of_singleton]%elem_of_app; [auto|].
    apply list_lookup_insert_eq. lia.
  - apply step_cell_append in Hstep as (_ & Ht0 & _).
    assert (Hfresh : v0 ∉ A).
    { intros Hv. specialize (Hz v0 Hv). congruence. }
    rewrite HA in Hfresh. apply not_elem_of_app in Hfresh as [Hf Hn].
    exists (new ++ [v0]). rewrite HA, app_assoc. split; [done|]. split.
    + apply NoDup_app. split; [done|]. split; [|apply NoDup_singleton].
      by intros v Hv ->%list_elem_of_singleton.
    + intros v [Hv| ->%list_elem_of_singleton]%elem_of_app; auto.
Qed.

Lemma settled_step Removed (index : nat) st v :
  worklist_inv final Removed st → st.1 !! index = Some v →
  0 ≤ v < Z.of_nat n → settled st →
  settled (foldl (visit_pure Removed) st (row_ones T (Z.to_nat v))).
Proof.
  intros Hinv _ _. pose proof (row_ones_range (Z.to_nat v)) as Hpreds.
  revert st Hinv.
  induction Hpreds as [|v0 preds Hv0 _ IH]; intros st Hinv Hs; simpl;
    [done|].
  apply IH; [by apply visit_pure_inv|].
  apply visit_pure_settled; try done; [apply Hinv|].
  by eapply worklist_inv_range.
Qed.

(** **** The counter of a state of player 2, for an attracting
    player other than 2 *)
Section opponent_state.
Context (Removed : list Z) (s : Z).
Hypothesis Hs : 0 ≤ s < Z.of_nat n.
Hypothesis Hturn : turn game s = 2.
Hypothesis Hi : i ≠ 2.
Hypothesis HsR : s ∉ Removed.
Hypothesis Hsucc : nonremoved_succs Removed s ≠ [].

Local Abbreviation k := (Z.of_nat (length (nonremoved_succs Removed s))).

(** How often [s] has been visited once the cursor is at [index]:
    once for each passed state of the worklist it has an edge to. *)
Definition visits (index : nat) (A : list Z) : nat :=
  length (filter (λ t, data T (Z.to_nat t) (Z.to_nat s) = 1)
                 (take index A)).

(** After [v] visits, [s] is in the worklist or its counter is
    what is left of its [k] successors. *)
Definition pending (v : nat) (st : list Z * list Z) : Prop :=
  s ∈ st.1 ∨
  (v = 0%nat ∧ st.2 !! Z.to_nat s = Some (-1)) ∨
  ((1 ≤ v)%nat ∧ st.2 !! Z.to_nat s = Some (k - 1 - Z.of_nat v) ∧
   k - 1 - Z.of_nat v > 0).

Lemma k_pos : 1 ≤ k.
Proof.
  destruct (nonremoved_succs Removed s); [done|]. simpl. lia.
Qed.

Lemma step_cell_opp_first :
  step_cell Removed s (-1)
  = if decide (k - 1 > 0) then (k - 2, bool_decide (k - 2 = 0))
    else (0, true).
Proof.
  pose proof k_pos as Hk. unfold step_cell.
  rewrite (decide_False (P := s ∈ Removed)) by done.
  rewrite (decide_True (P := (-1 = -1))) by done.
  rewrite (decide_False (P := turn game s = i)) by congruence.
  destruct (decide (k - 1 > 0)) as [Hc|Hc].
  - rewrite decide_True by done. f_equal; [lia|].
    by replace (k - 1 - 1) with (k - 2) by lia.
  - rewrite decide_False by tauto.
    replace (k - 1) with 0 by lia. by rewrite bool_decide_eq_true_2.
Qed.

Lemma step_cell_opp_next t :
  t > 0 → step_cell Removed s t = (t - 1, bool_decide (t - 1 = 0)).
Proof.
  intros Ht. unfold step_cell.
  rewrite (decide_False (P := s ∈ Removed)) by done.
  rewrite (decide_False (P := (t = -1))) by lia.
  by rewrite decide_True by done.
Qed.

Lemma visit_pure_self v st :
  length st.2 = n → pending v st →
  pending (S v) (visit_pure Removed st s).
Proof.
  destruct st as [A tmpMap]. simpl. intros Hlen Hp.
  destruct (visit_pure_cases Removed A tmpMap s)
    as (t & t' & app & Ht & Hstep & ->); [lia|].
  assert (Hins : <[Z.to_nat s:=t']> tmpMap !! Z.to_nat s = Some t').
  { apply list_lookup_insert_eq. lia. }
  destruct Hp as [Hin|[[-> Hm]|(Hv & Hm & Hpos)]]; simpl in *.
  - left. simpl. destruct app; [|done]. apply elem_of_app. by left.
  - rewrite Ht in Hm. injection Hm as ->.
    rewrite step_cell_opp_first in Hstep.
    destruct (decide (k - 1 > 0)); injection Hstep as <- <-.
    + destruct (decide (k - 2 = 0)) as [H0|H0].
      * left. rewrite bool_decide_eq_true_2 by done. simpl.
        apply elem_of_app. right. by left.
      * right. right. simpl. rewrite Hins.
        split; [lia|]. split; [f_equal; lia|lia].
    + left. simpl. apply elem_of_app. right. by left.
  - rewrite Ht in Hm. injection Hm as ->.
    rewrite step_cell_opp_next in Hstep by done.
    injection Hstep as <- <-.
    destruct (decide (k - 1 - Z.of_nat v - 1 = 0)) as [H0|H0].
    + left. rewrite bool_decide_eq_true_2 by done. simpl.
      apply elem_of_app. right. by left.
    + right. right. simpl. rewrite Hins.
      split; [lia|]. split; [f_equal; lia|lia].
Qed.

Lemma visit_pure_other v st v0 :
  v0 ≠ s → 0 ≤ v0 → pending v st →
  pending v (visit_pure Removed st v0).
Proof.
  intros Hne Hv0 Hp.
  assert (Hframe : (visit_pure Removed st v0).2 !! Z.to_nat s
                   = st.2 !! Z.to_nat s).
  { unfold visit_pure. destruct (st.2 !! Z.to_nat v0); [|done].
    destruct (step_cell Removed v0 z). simpl.
    apply list_lookup_insert_ne. lia. }
  destruct Hp as [Hin|[[-> Hm]|(Hv & Hm & Hpos)]].
  - left. destruct (visit_pure_grow Removed st v0) as [-> | ->];
      [done|]. apply elem_of_app. by left.
  - right. left. by rewrite Hframe.
  - right. right. by rewrite Hframe.
Qed.

Lemma foldl_visit_pure_other v st preds :
  s ∉ preds → Forall (λ v0, 0 ≤ v0 < Z.of_nat n) preds →
  pending v st → pending v (foldl (visit_pure Removed) st preds).
Proof.
  intros Hnot Hpreds. revert st Hnot.
  induction Hpreds as [|v0 preds Hv0 _ IH]; intros st Hnot Hp; simpl;
    [done|].
  apply not_elem_of_cons in Hnot as [Hne Hnot].
  apply IH; [done|]. apply visit_pure_other; [done|lia|done].
Qed.

Lemma foldl_length Removed' st preds :
  length (foldl (visit_pure Removed') st preds).2 = length st.2.
Proof.
  revert st. induction preds as [|v0 preds IH]; intros st; simpl;
    [done|]. by rewrite IH, visit_pure_length.
Qed.

Lemma foldl_visit_pure_self v st preds :
  NoDup preds → s ∈ preds →
  Forall (λ v0, 0 ≤ v0 < Z.of_nat n) preds → length st.2 = n →
  pending v st → pending (S v) (foldl (visit_pure Removed) st preds).
Proof.
  intros Hnd Hin Hpreds Hlen Hp.
  apply list_elem_of_split in Hin as (l1 & l2 & ->).
  apply NoDup_app in Hnd as (_ & Hl1 & [Hl2 _]%NoDup_cons).
  apply Forall_app in Hpreds as [Hp1 [_ Hp2]%Forall_cons].
  rewrite foldl_app. simpl.
  apply foldl_visit_pure_other; [done|done|].
  apply visit_pure_self; [by rewrite foldl_length|].
  apply foldl_visit_pure_other; [|done|done].
  intros H1. apply (Hl1 s H1). by left.
Qed.

Lemma pending_step index st v :
  worklist_inv final Removed st → st.1 !! index = Some v →
  0 ≤ v < Z.of_nat n → pending (visits index st.1) st →
  let st' := foldl (visit_pure Removed) st
                   (row_ones T (Z.to_nat v)) in
  pending (visits (S index) st'.1) st'.
Proof.
  intros Hinv Hv Hvr Hp st'.
  assert (Hvis : visits (S index) st'.1
    = (visits index st.1
       + if decide (data T (Z.to_nat v) (Z.to_nat s) = 1%Z)
         then 1 else 0)%nat).
  { subst st'.
    destruct (foldl_visit_pure_grow Removed st
                (row_ones T (Z.to_nat v))) as (l & -> & _).
    unfold visits.
    rewrite (take_S_r _ _ v) by (by apply lookup_app_l_Some).
    rewrite take_app_le
      by (apply Nat.lt_le_incl; by eapply lookup_lt_Some).
    rewrite filter_app, length_app, filter_cons, filter_nil.
    by case_decide. }
  rewrite Hvis. subst st'. case_decide as Hedge.
  - rewrite Nat.add_1_r. apply foldl_visit_pure_self; try done.
    + apply NoDup_row_ones.
    + apply elem_of_row_ones. split; [lia|done].
    + apply row_ones_range.
    + apply Hinv.
  - rewrite Nat.add_0_r. apply foldl_visit_pure_other; try done.
    + intros [_ H1]%elem_of_row_ones. done.
    + apply row_ones_range.
Qed.

Lemma pending_init : pending (visits 0 final) (final, tmpMap0 final).
Proof.
  destruct (decide (s ∈ final)) as [Hin|Hnin]; [by left|].
  right. left. split; [done|]. simpl.
  rewrite lookup_tmpMap0 by lia. by rewrite decide_False.
Qed.

(** Once the cursor has passed the whole worklist, a state all of
    whose successors outside [Removed] are in it is in it too. *)
Lemma pending_final A tmpMap :
  (∀ r c, data T r c = data G c r) →
  pending (visits (length A) A) (A, tmpMap) →
  (∀ t, t ∈ nonremoved_succs Removed s → t ∈ A) →
  s ∈ A.
Proof.
  intros HTG Hp Hall.
  assert (Hk : (length (nonremoved_succs Removed s)
                ≤ visits (length A) A)%nat).
  { unfold visits. rewrite firstn_all.
    apply submseteq_length, NoDup_submseteq.
    - apply NoDup_filter, NoDup_row_ones.
    - intros t Ht. apply list_elem_of_filter. split; [|by apply Hall].
      apply list_elem_of_filter in Ht as [_ [_ Ht]%elem_of_row_ones].
      by rewrite HTG. }
  pose proof k_pos.
  destruct Hp as [Hin|[[H0 _]|(_ & _ & Hpos)]]; [done|lia|lia].
Qed.
End opponent_state.
End declared.

(** *** A target outside the index range *)

(** The cursor passes the targets one by one, and the lookup of the
    predecessors raises at the first one that is no index of [T]. *)
Lemma solver_bad_target final s :
  n ≠ 0%nat → s ∈ final → s < - Z.of_nat n ∨ Z.of_nat n ≤ s →
  ∃ e, solver game G T final i = Some (Raise e).
Proof.
  intros Hn Hs Hbad.
  destruct (solver_total final) as ([A|e] & Hr & Hne); [|by exists e].
  exfalso. unfold solver in Hr. rewrite solver_fuel_eq in Hr.
  apply (while_loop_ind
           (λ index st, worklist_inv final Removed_states st ∧
              ∀ j v, (j < index)%nat → st.1 !! j = Some v →
                     - Z.of_nat n ≤ v < Z.of_nat n)) in Hr.
  - destruct Hr as (index' & tmpMap & Hlen & Hinv & Hpassed).
    destruct Hinv as (_ & new & HA & _). simpl in *.
    assert (HsA : s ∈ A) by (rewrite HA; apply elem_of_app; by left).
    apply list_elem_of_lookup in HsA as [j Hj].
    pose proof (lookup_lt_Some _ _ _ Hj).
    specialize (Hpassed j s ltac:(lia) Hj). lia.
  - intros index st st' [Hinv Hpassed] Hidx Hit.
    destruct (iteration_total final Removed_states index st Hinv Hidx)
      as [(e & _ & Hraise)|(st'' & Hit' & Hinv' & l & Hl)]; [congruence|].
    assert (st'' = st') as -> by congruence.
    split; [done|]. intros j v Hj Hjv.
    destruct (lookup_lt_is_Some_2 st.1 index) as [w Hw]; [done|].
    destruct (decide (j = index)) as [->|Hne'].
    + rewrite Hl, lookup_app_l in Hjv by done.
      assert (w = v) as -> by congruence.
      destruct (decide (- Z.of_nat n ≤ v < Z.of_nat n)); [done|].
      rewrite (iteration_Raise Removed_states index st v) in Hit;
        [done|done|lia|done].
    + apply (Hpassed j v); [lia|].
      rewrite Hl, lookup_app_l in Hjv by lia. done.
  - split; [apply worklist_inv_init|]. intros j v Hj. lia.
Qed.
End square.
End solver_facts.


(** ** Facts shared by the statements on the solver *)

Ltac by_computation :=
  match goal with
  | |- ?P => apply (bool_decide_unpack P); vm_compute; exact I
  end.

Lemma transpose_square G n :
  shape0 G = n → shape1 G = n →
  shape0 (transpose G) = n ∧ shape1 (transpose G) = n.
Proof. by intros H0 H1. Qed.

(** An appended state has an edge of [G] to a state earlier in the
    worklist. *)
Lemma witnessed_successor G n final index A tmpMap k s :
  shape0 G = n → shape1 G = n →
  witnessed (transpose G) n final index (A, tmpMap) →
  (∃ new, A = final ++ new) →
  A !! k = Some s → s ∉ final →
  ∃ j t, (j < k)%nat ∧ A !! j = Some t ∧ getitem G s t = Ok 1.
Proof.
  intros HG0 HG1 Hw [new HA] Hk Hs.
  destruct (decide (length final ≤ k)%nat) as [Hle|Hlt].
  - destruct (Hw k s Hle Hk) as (j & t & Hjk & _ & Hj & Ht & Hsr & Hedge).
    exists j, t. split; [done|]. split; [done|].
    rewrite getitem_nonneg by lia. by f_equal.
  - rewrite HA, lookup_app_l in Hk by lia.
    by apply list_elem_of_lookup_2 in Hk.
Qed.

(** Targets that numpy accepts as row indices, [-n, n), never make the
    loop raise. *)
Lemma while_loop_wrapped {Act} (game : Game Act) (G T : ndarray) (i : Z)
    (n : nat) (final Removed : list Z) :
  shape0 G = n → shape1 G = n → shape0 T = n → shape1 T = n →
  Forall (λ s, - Z.of_nat n ≤ s < Z.of_nat n) final →
  ∀ fuel index st,
    worklist_inv n final Removed st → (index ≤ length st.1)%nat →
    (length final + n < fuel + index)%nat →
    ∃ A, while_loop game G T i fuel Removed index st = Some (Ok A) ∧
         final `prefix_of` A.
Proof.
  intros HG0 HG1 HT0 HT1 Hfinal.
  induction fuel as [|fuel IH]; intros index st Hinv Hle Hf.
  - apply worklist_inv_length in Hinv. lia.
  - simpl. case_decide as Hidx.
    + destruct (lookup_lt_is_Some_2 st.1 index) as [v Hv]; [done|].
      assert (Hvr : - Z.of_nat n ≤ v < Z.of_nat n).
      { destruct Hinv as (_ & new & Hst & _ & Hnew). rewrite Hst in Hv.
        apply list_elem_of_lookup_2, elem_of_app in Hv as [Hv|Hv].
        - rewrite Forall_forall in Hfinal. by apply Hfinal.
        - destruct (Hnew v Hv) as [? _]. lia. }
      destruct (norm_index_wrapped n v Hvr) as [r Hr].
      rewrite (iteration_Ok game G T i n HG0 HG1 HT0 HT1 Removed index st v r);
        [|apply Hinv|done|done].
      apply IH.
      * apply (foldl_visit_pure_inv game G T i n); try done.
        by eapply row_ones_range.
      * destruct (foldl_visit_pure_grow game G i Removed st (row_ones T r))
          as (l & -> & _). rewrite length_app. lia.
      * lia.
    + exists st.1. split; [done|].
      destruct Hinv as (_ & new & -> & _). by apply prefix_app_r.
Qed.

(** The loop raises at the first target that is no row index of [T], with
    the exception of the lookup of its predecessors. *)
Lemma while_loop_first_bad_target {Act} (game : Game Act) (G T : ndarray)
    (i : Z) (n : nat) (final Removed good : list Z) (s : Z) (rest : list Z) :
  shape0 G = n → shape1 G = n → shape0 T = n → shape1 T = n →
  n ≠ 0%nat → final = good ++ s :: rest →
  Forall (λ t, - Z.of_nat n ≤ t < Z.of_nat n) good →
  s < - Z.of_nat n ∨ Z.of_nat n ≤ s →
  ∀ fuel index st,
    worklist_inv n final Removed st → (index ≤ length good)%nat →
    (length final + n < fuel + index)%nat →
    while_loop game G T i fuel Removed index st
    = Some (Raise (index_exn n s)).
Proof.
  intros HG0 HG1 HT0 HT1 Hn Hfinal Hgood Hbad.
  induction fuel as [|fuel IH]; intros index st Hinv Hle Hf.
  - rewrite Hfinal, length_app in Hf. simpl in Hf. lia.
  - simpl.
    assert (Hst : ∃ new, st.1 = good ++ s :: rest ++ new).
    { destruct Hinv as (_ & new & -> & _). exists new.
      by rewrite Hfinal, <-app_assoc. }
    destruct Hst as [new Hst].
    rewrite decide_True
      by (rewrite Hst, length_app; simpl; lia).
    destruct (decide (index = length good)) as [->|Hne].
    + rewrite (iteration_Raise game G T i n HG0 HG1 HT0 HT1 Removed
                 (length good) st s); [done| |done|done].
      rewrite Hst. by apply list_lookup_middle.
    + destruct (lookup_lt_is_Some_2 good index) as [v Hv]; [lia|].
      assert (Hvr : - Z.of_nat n ≤ v < Z.of_nat n).
      { rewrite Forall_lookup in Hgood. by eapply Hgood. }
      destruct (norm_index_wrapped n v Hvr) as [r Hr].
      rewrite (iteration_Ok game G T i n HG0 HG1 HT0 HT1 Removed index st v r);
        [|apply Hinv| |done].
      * apply IH; [|lia|lia].
        apply (foldl_visit_pure_inv game G T i n); try done.
        by eapply row_ones_range.
      * rewrite Hst. by apply lookup_app_l_Some.
Qed.

Lemma NoDup_range_length (l : list Z) n :
  NoDup l → Forall (λ s, 0 ≤ s < Z.of_nat n) l → (length l ≤ n)%nat.
Proof.
  intros Hnd Hr. rewrite <-(length_range n).
  apply submseteq_length, NoDup_submseteq; [done|].
  intros v Hv. apply elem_of_range. rewrite Forall_forall in Hr. by apply Hr.
Qed.

(** * The statements on the solver *)

(** ** Scenarios *)

(** C5, Scenario A (straight path): on the game of jobstmann.py (states
    0..3, edges 0→1, 1→2, 2→3, state 2 owned by player 1 and the others by
    player 2) with target set {3} and attracting player 1, the solver
    returns the worklist [3; 2; 1; 0], that is, exactly the states
    {0, 1, 2, 3}. *)
Theorem scenario_A_winning_region :
  solve_game (JobstmannGame [3]) [3] 1 = Some (Ok [3; 2; 1; 0]) ∧
  jobstmann_main = Some (Ok [3; 2; 1; 0]) ∧
  ∀ s : Z, s ∈ [3; 2; 1; 0] ↔ s ∈ [0; 1; 2; 3].
Proof.
  split; [by vm_compute|]. split; [by vm_compute|].
  intros s. rewrite !elem_of_cons, !elem_of_nil. lia.
Qed.

(** C1, Scenario B (opponent escape), what the code does: on the game of
    Scenario A extended by the edge 1→4 into the dead end 4, with target
    set {3} and attracting player 1, the solver returns [3; 2; 1; 0] and
    not the winning region {2, 3}.  State 1 of player 2 has the two
    successors 2 and 4; when it is visited for the first time, as a
    predecessor of 2, with state 4 not in the worklist, its counter is set
    to 1 (line 89) and decremented at once (lines 92-93), so that it is
    appended (line 95); state 0 follows it. *)
Theorem scenario_B_returned :
  let game := EscapeGame [3] in
  let G := graph_of game in
  solve_game game [3] 1 = Some (Ok [3; 2; 1; 0]) ∧
  turn game 1 = 2 ∧
  adj G 1 = Ok [2; 4] ∧
  visit game G 1 [] 1 ([3; 2], [-1; -1; 0; 0; -1])
  = Ok ([3; 2; 1], [-1; 0; 0; 0; -1]).
Proof. repeat split; by vm_compute. Qed.

(** ** The preprocessing pass *)

(** C8, the Removed set: on a square matrix the preprocessing pass does
    not raise, and a state [v1] is in [Removed] exactly when some state [v]
    has a self-loop, is owned by player 2 and is a successor of [v1].  In
    particular a matrix without self-loops has an empty [Removed],
    whatever cycles it has. *)
Theorem Removed_characterization {Act} (game : Game Act) (G : ndarray)
    (n : nat) (HG0 : shape0 G = n) (HG1 : shape1 G = n) :
  ∃ Removed,
    removed_states game G = Ok Removed ∧
    (∀ v1, v1 ∈ Removed ↔
       ∃ v, 0 ≤ v < Z.of_nat n ∧ 0 ≤ v1 < Z.of_nat n ∧
            getitem G v v = Ok 1 ∧ turn game v = 2 ∧
            getitem G v1 v = Ok 1) ∧
    ((∀ v, 0 ≤ v < Z.of_nat n → getitem G v v ≠ Ok 1) → Removed = []).
Proof.
  exists (Removed_states game G).
  split; [apply removed_states_Ok; lia|].
  assert (Hiff : ∀ v1, v1 ∈ Removed_states game G ↔
       ∃ v, 0 ≤ v < Z.of_nat n ∧ 0 ≤ v1 < Z.of_nat n ∧
            getitem G v v = Ok 1 ∧ turn game v = 2 ∧
            getitem G v1 v = Ok 1).
  { intros v1. unfold Removed_states. rewrite elem_of_removed, HG0.
    split; intros (v & Hv & Hv1 & Hloop & Hturn & Hedge); exists v;
      rewrite !getitem_nonneg in * by lia;
      repeat split; try done; try lia; congruence. }
  split; [done|]. intros Hnone.
  destruct (Removed_states game G) as [|v1 R] eqn:HR; [done|].
  destruct (proj1 (Hiff v1)) as (v & Hv & _ & Hloop & _); [by left|].
  by destruct (Hnone v Hv).
Qed.

Lemma Removed_characterization_witness :
  ∃ Removed,
    removed_states (SelfLoopGame [0]) (graph_of (SelfLoopGame [0]))
    = Ok Removed ∧
    (∀ v1, v1 ∈ Removed ↔
       ∃ v, 0 ≤ v < Z.of_nat 2 ∧ 0 ≤ v1 < Z.of_nat 2 ∧
            getitem (graph_of (SelfLoopGame [0])) v v = Ok 1 ∧
            turn (SelfLoopGame [0]) v = 2 ∧
            getitem (graph_of (SelfLoopGame [0])) v1 v = Ok 1) ∧
    ((∀ v, 0 ≤ v < Z.of_nat 2 →
        getitem (graph_of (SelfLoopGame [0])) v v ≠ Ok 1) → Removed = []).
Proof.
  apply (Removed_characterization (SelfLoopGame [0])
           (graph_of (SelfLoopGame [0])) 2); reflexivity.
Defined.

(** ** Targets and removed states in the worklist *)

(** C6, target inclusion: for a square game and a target set of declared
    states the solver returns a worklist, and every target is in it. *)
Theorem target_inclusion {Act} (game : Game Act) (G T : ndarray) (i : Z)
    (n : nat) (final : list Z)
    (HG0 : shape0 G = n) (HG1 : shape1 G = n)
    (HT0 : shape0 T = n) (HT1 : shape1 T = n)
    (Hfinal : Forall (λ s, 0 ≤ s < Z.of_nat n) final) :
  ∃ A, solver game G T final i = Some (Ok A) ∧ ∀ s, s ∈ final → s ∈ A.
Proof.
  destruct (solver_Ok game G T i n HG0 HG1 HT0 HT1 final Hfinal
              (λ _ _, True)) as (A & tmpMap & HA & Hinv & _); [done|done|].
  exists A. split; [done|].
  destruct Hinv as (_ & new & Hnew & _). simpl in Hnew. rewrite Hnew.
  intros s Hs. apply elem_of_app. by left.
Qed.

Lemma target_inclusion_witness :
  ∃ A, solver (JobstmannGame [3]) (graph_of (JobstmannGame [3]))
              (transpose (graph_of (JobstmannGame [3]))) [3] 1 = Some (Ok A) ∧
       ∀ s, s ∈ [3] → s ∈ A.
Proof.
  apply (target_inclusion (JobstmannGame [3]) (graph_of (JobstmannGame [3]))
           (transpose (graph_of (JobstmannGame [3]))) 1 4 [3]);
    try reflexivity.
  by_computation.
Defined.

(** C4 as the code has it: the worklist starts as the target set, so a
    target of [Removed] is returned; in the game with the self-loop on 0
    and the edge 1→0, both owned by player 2, and target set {0}, state 0
    is in [Removed] and in the returned worklist. *)
Lemma Removed_target_returned :
  removed_states (SelfLoopGame [0]) (graph_of (SelfLoopGame [0]))
  = Ok [0; 1] ∧
  solver (SelfLoopGame [0]) (graph_of (SelfLoopGame [0]))
         (transpose (graph_of (SelfLoopGame [0]))) [0] 1 = Some (Ok [0]) ∧
  (0 : Z) ∈ [0; 1] ∧ (0 : Z) ∈ [0].
Proof. repeat split; try by vm_compute; by left. Qed.

(** C4, amended: no state of [Removed] is ever appended; a state of
    [Removed] in the returned worklist is one of the targets. *)
Theorem Removed_never_appended {Act} (game : Game Act) (G T : ndarray)
    (i : Z) (n : nat) (final : list Z)
    (HG0 : shape0 G = n) (HG1 : shape1 G = n)
    (HT0 : shape0 T = n) (HT1 : shape1 T = n)
    (Hfinal : Forall (λ s, 0 ≤ s < Z.of_nat n) final) :
  ∃ Removed A,
    removed_states game G = Ok Removed ∧
    solver game G T final i = Some (Ok A) ∧
    ∀ s, s ∈ A → s ∈ Removed → s ∈ final.
Proof.
  destruct (solver_Ok game G T i n HG0 HG1 HT0 HT1 final Hfinal
              (λ _ _, True)) as (A & tmpMap & HA & Hinv & _); [done|done|].
  exists (Removed_states game G), A.
  split; [apply removed_states_Ok; lia|]. split; [done|].
  destruct Hinv as (_ & new & Heq & _ & Hnew). simpl in Heq, Hnew.
  rewrite Heq. intros s [Hs|Hs]%elem_of_app HR; [done|].
  by destruct (Hnew s Hs) as (_ & HnR & _).
Qed.

Lemma Removed_never_appended_witness :
  ∃ Removed A,
    removed_states (SelfLoopGame [0]) (graph_of (SelfLoopGame [0]))
    = Ok Removed ∧
    solver (SelfLoopGame [0]) (graph_of (SelfLoopGame [0]))
           (transpose (graph_of (SelfLoopGame [0]))) [0] 1 = Some (Ok A) ∧
    ∀ s, s ∈ A → s ∈ Removed → s ∈ [0].
Proof.
  apply (Removed_never_appended (SelfLoopGame [0])
           (graph_of (SelfLoopGame [0]))
           (transpose (graph_of (SelfLoopGame [0]))) 1 2 [0]);
    try reflexivity.
  by_computation.
Defined.

(** ** Inputs outside the contract *)

(** C3 as the code has it: the solver validates neither the player tag
    nor the targets.  On the game of jobstmann.py it returns a worklist for
    the player tag 3, and also for the target -1, which is no declared
    state and is read by numpy as the last row of [T]. *)
Lemma unvalidated_inputs_accepted :
  (3 ≠ 1 ∧ 3 ≠ 2 ∧
   solve_game (JobstmannGame [3]) [3] 3 = Some (Ok [3; 2; 1; 0])) ∧
  ((-1 ∉ states (JobstmannGame [-1])) ∧
   solve_game (JobstmannGame [-1]) [-1] 1 = Some (Ok [-1; 2; 1; 0])).
Proof.
  repeat split; try done; try by vm_compute. by_computation.
Qed.

(** C3, amended: the solver has no validation step.  For every player tag
    (1, 2 or any other integer) and every target set whose states numpy
    accepts as row indices of the [n × n] matrices, that is, the declared
    states [0 .. n-1] and also the targets in [-n, -1], which are read as
    row [n + target], it returns a worklist that starts with the targets.
    When a target lies outside [-n, n) and the matrices are not empty, the
    preprocessing pass and the counter array succeed and the failure
    arises inside the loop, at the first such target the cursor reaches,
    from the lookup of its predecessors: [OverflowError] for a target in
    [2^63, 2^64) and [IndexError] otherwise; nothing is returned. *)
Theorem no_input_validation {Act} (game : Game Act) (G T : ndarray) (i : Z)
    (n : nat) (final : list Z)
    (HG0 : shape0 G = n) (HG1 : shape1 G = n)
    (HT0 : shape0 T = n) (HT1 : shape1 T = n)
    (Hn63 : Z.of_nat n < 2 ^ 63) :
  (Forall (λ s, - Z.of_nat n ≤ s < Z.of_nat n) final →
   ∃ A, solver game G T final i = Some (Ok A) ∧ final `prefix_of` A) ∧
  (∀ v, - Z.of_nat n ≤ v < 0 → adj T v = adj T (v + Z.of_nat n)) ∧
  (n ≠ 0%nat →
   ∀ good s rest,
     final = good ++ s :: rest →
     Forall (λ t, - Z.of_nat n ≤ t < Z.of_nat n) good →
     s < - Z.of_nat n ∨ Z.of_nat n ≤ s →
     let e := if decide (2 ^ 63 ≤ s < 2 ^ 64)
              then OverflowError else IndexError in
     ∃ Removed tmpMap,
       removed_states game G = Ok Removed ∧
       init_tmpMap G final = Ok tmpMap ∧
       adj T s = Raise e ∧
       while_loop game G T i (S (length final + n)) Removed 0 (final, tmpMap)
       = Some (Raise e) ∧
       solver game G T final i = Some (Raise e)).
Proof.
  split; [|split].
  - intros Hfinal. unfold solver.
    rewrite (solver_fuel_eq game G T i n) by done.
    apply (while_loop_wrapped game G T i n final); try done.
    + apply (worklist_inv_init G n HG0).
    + simpl. lia.
    + rewrite HG0. lia.
  - intros v Hv.
    rewrite (adj_Ok T v (Z.to_nat (v + Z.of_nat n))),
            (adj_Ok T (v + Z.of_nat n) (Z.to_nat (v + Z.of_nat n))); [done| |].
    + apply norm_index_nonneg. lia.
    + unfold norm_index. rewrite decide_False, decide_True by lia.
      by rewrite HT0.
  - intros Hn good s rest Hsplit Hgood Hbad e.
    assert (He : index_exn n s = e).
    { unfold index_exn, e.
      destruct (decide (2 ^ 63 ≤ s < 2 ^ 64)) as [Hs|Hs].
      - by rewrite decide_True.
      - rewrite decide_False; [done|tauto]. }
    exists (Removed_states game G), (tmpMap0 G final).
    split; [apply removed_states_Ok; lia|]. split; [apply init_tmpMap_Ok|].
    assert (Hloop : while_loop game G T i (S (length final + n))
                      (Removed_states game G) 0 (final, tmpMap0 G final)
                    = Some (Raise e)).
    { rewrite <-He.
      apply (while_loop_first_bad_target game G T i n final
               (Removed_states game G) good s rest); try done.
      - apply (worklist_inv_init G n HG0).
      - lia.
      - lia. }
    split; [|split; [done|]].
    + rewrite <-He. apply adj_Raise; [|lia].
      apply norm_index_Raise. by rewrite HT0.
    + unfold solver. rewrite (solver_fuel_eq game G T i n) by done.
      by rewrite HG0.
Qed.

Lemma no_input_validation_witness :
  (∃ A, solver (JobstmannGame [3]) (graph_of (JobstmannGame [3]))
               (transpose (graph_of (JobstmannGame [3]))) [3; -1] 3
        = Some (Ok A) ∧ [3; -1] `prefix_of` A) ∧
  solver (JobstmannGame [7]) (graph_of (JobstmannGame [7]))
         (transpose (graph_of (JobstmannGame [7]))) [3; 7] 1
  = Some (Raise IndexError) ∧
  solver (JobstmannGame [7]) (graph_of (JobstmannGame [7]))
         (transpose (graph_of (JobstmannGame [7]))) [2 ^ 63] 1
  = Some (Raise OverflowError).
Proof.
  split; [|split].
  - apply (no_input_validation (JobstmannGame [3])
             (graph_of (JobstmannGame [3]))
             (transpose (graph_of (JobstmannGame [3]))) 3 4 [3; -1]);
      try reflexivity.
    by_computation.
  - destruct (no_input_validation (JobstmannGame [7])
                (graph_of (JobstmannGame [7]))
                (transpose (graph_of (JobstmannGame [7]))) 1 4 [3; 7])
      as (_ & _ & Hraise); [reflexivity..|].
    destruct (Hraise ltac:(lia) [3] 7 [] eq_refl ltac:(by_computation)
                ltac:(lia))
      as (Removed & tmpMap & _ & _ & _ & _ & Hsolver).
    exact Hsolver.
  - destruct (no_input_validation (JobstmannGame [7])
                (graph_of (JobstmannGame [7]))
                (transpose (graph_of (JobstmannGame [7]))) 1 4 [2 ^ 63])
      as (_ & _ & Hraise); [reflexivity..|].
    destruct (Hraise ltac:(lia) [] (2 ^ 63) [] eq_refl ltac:(by_computation)
                ltac:(right; by_computation))
      as (Removed & tmpMap & _ & _ & _ & _ & Hsolver).
    exact Hsolver.
Defined.

(** ** Termination *)

(** C9, termination: for a square game and a target set of declared
    states the loop comes to an end: the solver returns a worklist [A], and
    so does every run with at least [len(final) + n + 1] units of fuel.
    The worklist only grows (every iteration extends it); it is the target
    sequence followed by the appended states, which are pairwise distinct,
    are no targets and are at most [n]; so a duplicate-free target set
    gives a duplicate-free worklist of at most [n] states. *)
Theorem solver_terminates {Act} (game : Game Act) (G T : ndarray) (i : Z)
    (n : nat) (final : list Z)
    (HG0 : shape0 G = n) (HG1 : shape1 G = n)
    (HT0 : shape0 T = n) (HT1 : shape1 T = n)
    (Hfinal : Forall (λ s, 0 ≤ s < Z.of_nat n) final) :
  ∃ A new,
    solver game G T final i = Some (Ok A) ∧
    (∀ fuel, (S (length final + n) ≤ fuel)%nat →
       solver_fuel game G T final i fuel = Some (Ok A)) ∧
    A = final ++ new ∧ NoDup new ∧ (∀ v, v ∈ new → v ∉ final) ∧
    (length new ≤ n)%nat ∧
    (NoDup final → NoDup A ∧ (length A ≤ n)%nat) ∧
    (∀ Removed index st st',
       iteration game G T i Removed index st = Ok st' →
       st.1 `prefix_of` st'.1).
Proof.
  destruct (solver_Ok game G T i n HG0 HG1 HT0 HT1 final Hfinal
              (λ _ st, settled final st))
    as (A & tmpMap & HA & Hinv & _ & new & Hnew & Hnd & Hfresh).
  { by apply (settled_init G n). }
  { intros index st v. by apply (settled_step game G T i n). }
  simpl in Hnew.
  assert (Hr : Forall (λ s, 0 ≤ s < Z.of_nat n) A)
    by apply (worklist_inv_range n final Hfinal _ _ Hinv).
  assert (HndA : NoDup final → NoDup A).
  { intros Hset. rewrite Hnew. apply NoDup_app. split; [done|].
    split; [|done]. intros v Hv Hv'. by apply (Hfresh v). }
  exists A, new. split; [done|]. repeat split; try done.
  - intros fuel Hfuel. rewrite (solver_fuel_eq game G T i n) by done.
    unfold solver in HA. rewrite (solver_fuel_eq game G T i n) in HA by done.
    eapply (while_loop_fuel_mono game G T i n); try done. lia.
  - apply NoDup_range_length; [done|].
    rewrite Hnew in Hr. by apply Forall_app in Hr as [_ Hr].
  - by apply HndA.
  - apply NoDup_range_length; [by apply HndA|done].
  - intros Removed index st st'. apply iteration_prefix.
Qed.

Lemma solver_terminates_witness :
  ∃ A new,
    solver (JobstmannGame [3]) (graph_of (JobstmannGame [3]))
           (transpose (graph_of (JobstmannGame [3]))) [3] 1 = Some (Ok A) ∧
    (∀ fuel, (S (length [3] + 4) ≤ fuel)%nat →
       solver_fuel (JobstmannGame [3]) (graph_of (JobstmannGame [3]))
                   (transpose (graph_of (JobstmannGame [3]))) [3] 1 fuel
       = Some (Ok A)) ∧
    A = [3] ++ new ∧ NoDup new ∧ (∀ v, v ∈ new → v ∉ [3]) ∧
    (length new ≤ 4)%nat ∧
    (NoDup [3] → NoDup A ∧ (length A ≤ 4)%nat) ∧
    (∀ Removed index st st',
       iteration (JobstmannGame [3]) (graph_of (JobstmannGame [3]))
                 (transpose (graph_of (JobstmannGame [3]))) 1
                 Removed index st = Ok st' →
       st.1 `prefix_of` st'.1).
Proof.
  apply (solver_terminates (JobstmannGame [3]) (graph_of (JobstmannGame [3]))
           (transpose (graph_of (JobstmannGame [3]))) 1 4 [3]);
    try reflexivity.
  by_computation.
Defined.

(** ** Edges that justify an appended state *)

(** C10, witness edges: for a square game solved with [T = G.T] and a
    target set of declared states, every state of the returned worklist
    that is not a target has an edge of [G] to a state that stands
    strictly earlier in the worklist. *)
Theorem appended_state_has_witness_edge {Act} (game : Game Act)
    (G : ndarray) (i : Z) (n : nat) (final : list Z)
    (HG0 : shape0 G = n) (HG1 : shape1 G = n)
    (Hfinal : Forall (λ s, 0 ≤ s < Z.of_nat n) final) :
  ∃ A,
    solver game G (transpose G) final i = Some (Ok A) ∧
    ∀ k s, A !! k = Some s → s ∉ final →
      ∃ j t, (j < k)%nat ∧ A !! j = Some t ∧ getitem G s t = Ok 1.
Proof.
  destruct (transpose_square G n HG0 HG1) as [HT0 HT1].
  destruct (solver_Ok game G (transpose G) i n HG0 HG1 HT0 HT1 final Hfinal
              (witnessed (transpose G) n final))
    as (A & tmpMap & HA & Hinv & Hw).
  { by apply (witnessed_init G (transpose G) n). }
  { intros index st v.
    by apply (witnessed_step game G (transpose G) i n). }
  exists A. split; [done|]. intros k s Hk Hs.
  apply (witnessed_successor G n final (length A) A tmpMap k s); try done.
  destruct Hinv as (_ & new & Hnew & _). by exists new.
Qed.

Lemma appended_state_has_witness_edge_witness :
  ∃ A,
    solver (JobstmannGame [3]) (graph_of (JobstmannGame [3]))
           (transpose (graph_of (JobstmannGame [3]))) [3] 1 = Some (Ok A) ∧
    ∀ k s, A !! k = Some s → s ∉ [3] →
      ∃ j t, (j < k)%nat ∧ A !! j = Some t ∧
             getitem (graph_of (JobstmannGame [3])) s t = Ok 1.
Proof.
  apply (appended_state_has_witness_edge (JobstmannGame [3])
           (graph_of (JobstmannGame [3])) 1 4 [3]); try reflexivity.
  by_computation.
Defined.

(** C7 as the code has it: the solver walks the edges backwards, so a
    state without incoming edges is appended like any other.  In Scenario A
    state 0 has no incoming edge and is no target, and it is returned. *)
Lemma source_state_returned :
  Forall (λ j, getitem (graph_of (JobstmannGame [3])) j 0 ≠ Ok 1)
         (states (JobstmannGame [3])) ∧
  (0 ∉ [3]) ∧
  solver (JobstmannGame [3]) (graph_of (JobstmannGame [3]))
         (transpose (graph_of (JobstmannGame [3]))) [3] 1
  = Some (Ok [3; 2; 1; 0]) ∧
  (0 : Z) ∈ [3; 2; 1; 0].
Proof.
  split; [by_computation|]. split; [by_computation|].
  split; [by vm_compute|by_computation].
Qed.

(** C7, amended: a state without outgoing edges (no declared state [t]
    with [G[s][t] = 1]) that is no target is never in the returned
    worklist. *)
Theorem sink_state_never_added {Act} (game : Game Act)
    (G : ndarray) (i : Z) (n : nat) (final : list Z)
    (HG0 : shape0 G = n) (HG1 : shape1 G = n)
    (Hfinal : Forall (λ s, 0 ≤ s < Z.of_nat n) final) :
  ∃ A,
    solver game G (transpose G) final i = Some (Ok A) ∧
    ∀ s, (∀ t, 0 ≤ t < Z.of_nat n → getitem G s t ≠ Ok 1) →
         s ∉ final → s ∉ A.
Proof.
  destruct (transpose_square G n HG0 HG1) as [HT0 HT1].
  destruct (solver_Ok game G (transpose G) i n HG0 HG1 HT0 HT1 final Hfinal
              (witnessed (transpose G) n final))
    as (A & tmpMap & HA & Hinv & Hw).
  { by apply (witnessed_init G (transpose G) n). }
  { intros index st v.
    by apply (witnessed_step game G (transpose G) i n). }
  exists A. split; [done|]. intros s Hsink Hs [k Hk]%list_elem_of_lookup.
  assert (Hr : Forall (λ s, 0 ≤ s < Z.of_nat n) A)
    by apply (worklist_inv_range n final Hfinal _ _ Hinv).
  rewrite Forall_lookup in Hr.
  destruct (witnessed_successor G n final (length A) A tmpMap k s)
    as (j & t & _ & Hj & Hedge); try done.
  - destruct Hinv as (_ & new & Hnew & _). by exists new.
  - apply (Hsink t); [by eapply Hr|done].
Qed.

Lemma sink_state_never_added_witness :
  ∃ A,
    solver (EscapeGame [3]) (graph_of (EscapeGame [3]))
           (transpose (graph_of (EscapeGame [3]))) [3] 1 = Some (Ok A) ∧
    ∀ s, (∀ t, 0 ≤ t < Z.of_nat 5 →
            getitem (graph_of (EscapeGame [3])) s t ≠ Ok 1) →
         s ∉ [3] → s ∉ A.
Proof.
  apply (sink_state_never_added (EscapeGame [3])
           (graph_of (EscapeGame [3])) 1 5 [3]); try reflexivity.
  by_computation.
Defined.

(** ** Rule (b): the states of the opponent *)

(** C2 as the code has it, on the game with the self-loop on 0 and the
    path 0→1→2, all states owned by player 2, target set {1}, attracting
    player 1, where [Removed = [0]] and the solver returns [1]:
    - state 0 is owned by the opponent and its only successor outside
      [Removed], state 1, is returned, but state 0 is in [Removed] and is
      never visited;
    - state 1 is owned by the opponent and is returned, being a target,
      but its successor 2 is not. *)
Lemma rule_b_fails_on_removed_and_targets :
  let game := LoopPathGame [1] in
  let G := graph_of game in
  removed_states game G = Ok [0] ∧
  solver game G (transpose G) [1] 1 = Some (Ok [1]) ∧
  (turn game 0 ≠ 1 ∧ nonremoved_succs G [0] 0 = [1] ∧ (0 ∉ [1])) ∧
  (turn game 1 ≠ 1 ∧ 1 ∈ [1] ∧ 2 ∈ nonremoved_succs G [0] 1 ∧ (2 ∉ [1])).
Proof.
  intros game G.
  split; [by vm_compute|]. split; [by vm_compute|].
  split; (split; [by vm_compute|]).
  - split; [by vm_compute|by_computation].
  - split; [by left|]. split; by_computation.
Qed.

(** C2, amended, for the attracting player 1, a square game solved with
    [T = G.T] and a target set of declared states:
    - every state of player 2 outside [Removed] that has a successor
      outside [Removed], and all of whose successors outside [Removed] are
      in the returned worklist, is in the returned worklist;
    - every returned state that is no target is outside [Removed] and has
      a successor in the returned worklist. *)
Theorem rule_b_for_player_1 {Act} (game : Game Act)
    (G : ndarray) (n : nat) (final : list Z)
    (HG0 : shape0 G = n) (HG1 : shape1 G = n)
    (Hfinal : Forall (λ s, 0 ≤ s < Z.of_nat n) final) :
  ∃ Removed A,
    removed_states game G = Ok Removed ∧
    solver game G (transpose G) final 1 = Some (Ok A) ∧
    (∀ s, 0 ≤ s < Z.of_nat n → turn game s = 2 → s ∉ Removed →
          nonremoved_succs G Removed s ≠ [] →
          (∀ t, t ∈ nonremoved_succs G Removed s → t ∈ A) →
          s ∈ A) ∧
    (∀ s, s ∈ A → s ∉ final →
          (s ∉ Removed) ∧ ∃ t, t ∈ A ∧ getitem G s t = Ok 1).
Proof.
  destruct (transpose_square G n HG0 HG1) as [HT0 HT1].
  set (Removed := Removed_states game G).
  destruct (solver_Ok game G (transpose G) 1 n HG0 HG1 HT0 HT1 final Hfinal
    (λ index st,
       witnessed (transpose G) n final index st ∧
       ∀ s, 0 ≤ s < Z.of_nat n → turn game s = 2 → s ∉ Removed →
            nonremoved_succs G Removed s ≠ [] →
            pending G Removed s (visits (transpose G) s index st.1) st))
    as (A & tmpMap & HA & Hinv & Hw & Hp).
  { split; [by apply (witnessed_init G (transpose G) n)|].
    intros s Hs _ _ _.
    exact (pending_init G (transpose G) n HG0 HG1 HT0 HT1 final Removed s Hs). }
  { intros index st v Hinv Hv Hvr [Hw Hp]. split.
    - by apply (witnessed_step game G (transpose G) 1 n).
    - intros s Hs Hturn HsR Hsucc.
      apply (pending_step game G (transpose G) 1 n HG0 HG1 HT0 HT1 final
               Removed s Hs Hturn ltac:(done) HsR Hsucc index st v Hinv Hv Hvr).
      by apply Hp. }
  exists Removed, A. split; [apply removed_states_Ok; lia|].
  split; [done|]. split.
  - intros s Hs Hturn HsR Hsucc Hall.
    apply (pending_final G (transpose G) n HG0 HG1 HT0 HT1 Removed s Hsucc
             A tmpMap); [done| |done].
    by apply Hp.
  - intros s HsA Hs.
    destruct (Hinv) as (_ & new & Hnew & _ & Hnews). simpl in Hnew, Hnews.
    split.
    + rewrite Hnew in HsA. apply elem_of_app in HsA as [HsA|HsA]; [done|].
      by destruct (Hnews s HsA) as (_ & HnR & _).
    + apply list_elem_of_lookup in HsA as [k Hk].
      destruct (witnessed_successor G n final (length A) A tmpMap k s)
        as (j & t & _ & Hj & Hedge); try done; [by exists new|].
      exists t. split; [by eapply list_elem_of_lookup_2|done].
Qed.

Lemma rule_b_for_player_1_witness :
  ∃ Removed A,
    removed_states (JobstmannGame [3]) (graph_of (JobstmannGame [3]))
    = Ok Removed ∧
    solver (JobstmannGame [3]) (graph_of (JobstmannGame [3]))
           (transpose (graph_of (JobstmannGame [3]))) [3] 1 = Some (Ok A) ∧
    (∀ s, 0 ≤ s < Z.of_nat 4 → turn (JobstmannGame [3]) s = 2 →
          s ∉ Removed →
          nonremoved_succs (graph_of (JobstmannGame [3])) Removed s ≠ [] →
          (∀ t, t ∈ nonremoved_succs (graph_of (JobstmannGame [3]))
                      Removed s → t ∈ A) →
          s ∈ A) ∧
    (∀ s, s ∈ A → s ∉ [3] →
          (s ∉ Removed) ∧
          ∃ t, t ∈ A ∧ getitem (graph_of (JobstmannGame [3])) s t = Ok 1).
Proof.
  apply (rule_b_for_player_1 (JobstmannGame [3])
           (graph_of (JobstmannGame [3])) 4 [3]); try reflexivity.
  by_computation.
Defined.

(** * Further properties of the code *)

(** ** Loops that may raise *)

(** A loop returns when each of its body calls has returned, and raises
    what one of its body calls raises; [I] is an invariant of the looped
    state. *)
Lemma for_each_cases {X S} (I : S → Prop) (xs : list X)
    (body : X → S → result S) (s0 : S) :
  (∀ x s s', x ∈ xs → I s → body x s = Ok s' → I s') →
  I s0 →
  match for_each xs body s0 with
  | Ok s' => I s' ∧ ∀ x, x ∈ xs → ∃ s1 s2, I s1 ∧ body x s1 = Ok s2
  | Raise e => ∃ x s1, x ∈ xs ∧ I s1 ∧ body x s1 = Raise e
  end.
Proof.
  revert s0. induction xs as [|x xs IH]; intros s0 Hinv Hs0; simpl.
  - split; [done|]. intros x Hx. by apply elem_of_nil in Hx.
  - destruct (body x s0) as [s1|e] eqn:Hb; simpl.
    + assert (Hs1 : I s1) by (eapply Hinv; [left|done|done]).
      specialize (IH s1 (λ y s s' Hy, Hinv y s s' (list_elem_of_further _ _ _ Hy))
                    Hs1).
      destruct (for_each xs body s1) as [s'|e].
      * destruct IH as [Hs' Hall]. split; [done|].
        intros y [->|Hy]%elem_of_cons; [by exists s0, s1|by apply Hall].
      * destruct IH as (y & s2 & Hy & Hs2 & Hr).
        exists y, s2. split; [by right|done].
    + exists x, s0. split; [left|done].
Qed.

Lemma for_each_app {X S} (xs ys : list X) (body : X → S → result S) s :
  for_each (xs ++ ys) body s = for_each xs body s ≫= for_each ys body.
Proof.
  revert s; induction xs as [|x xs IH]; intros s; simpl; [done|].
  destruct (body x s) as [s'|e]; simpl; [apply IH|done].
Qed.

Lemma range_split (m n : nat) :
  (m < n)%nat →
  range n = range m ++ Z.of_nat m :: (Z.of_nat <$> seq (S m) (n - S m)).
Proof.
  intros Hmn. unfold range.
  replace n with (m + S (n - S m))%nat at 1 by lia.
  by rewrite seq_app, fmap_app.
Qed.

(** ** Dictionaries *)

Section dict_facts.
Context {K V : Type} `{EqDecision K}.
Implicit Types (d : list (K * V)) (k : K) (v : V).

Lemma dict_keys_set d k v k' :
  k' ∈ dict_keys (dict_set d k v) ↔ k' = k ∨ k' ∈ dict_keys d.
Proof.
  unfold dict_keys. induction d as [|[k0 v0] d IH]; simpl.
  - rewrite list_elem_of_singleton, elem_of_nil. tauto.
  - case_decide as Hk; simpl; rewrite !elem_of_cons.
    + subst. tauto.
    + rewrite IH. tauto.
Qed.

Lemma dict_entries_set d k v k' v' :
  (k', v') ∈ dict_set d k v → (k', v') = (k, v) ∨ (k', v') ∈ d.
Proof.
  induction d as [|[k0 v0] d IH]; simpl.
  - intros ->%list_elem_of_singleton. by left.
  - case_decide as Hk; rewrite !elem_of_cons; [tauto|].
    intros [?|?]; [tauto|]. destruct IH; auto.
Qed.

Lemma dict_keys_of_aux (kvs : list (K * V)) d k :
  k ∈ dict_keys (foldl (λ d kv, dict_set d kv.1 kv.2) d kvs) ↔
  k ∈ dict_keys d ∨ k ∈ kvs.*1.
Proof.
  revert d. induction kvs as [|[k0 v0] kvs IH]; intros d; simpl.
  - rewrite elem_of_nil. tauto.
  - rewrite IH, dict_keys_set, elem_of_cons. tauto.
Qed.

Lemma dict_keys_of (kvs : list (K * V)) k :
  k ∈ dict_keys (dict_of kvs) ↔ k ∈ kvs.*1.
Proof.
  unfold dict_of. rewrite dict_keys_of_aux. unfold dict_keys. simpl.
  rewrite elem_of_nil. tauto.
Qed.

Lemma dict_entries_of_aux (kvs : list (K * V)) d k v :
  (k, v) ∈ foldl (λ d kv, dict_set d kv.1 kv.2) d kvs →
  (k, v) ∈ d ∨ (k, v) ∈ kvs.
Proof.
  revert d. induction kvs as [|[k0 v0] kvs IH]; intros d; simpl; [by left|].
  intros [[[= -> ->]|?]%dict_entries_set|?]%IH; rewrite elem_of_cons; auto.
Qed.

Lemma dict_entries_of (kvs : list (K * V)) k v :
  (k, v) ∈ dict_of kvs → (k, v) ∈ kvs.
Proof.
  intros [Hnil|?]%dict_entries_of_aux; [|done]. by apply elem_of_nil in Hnil.
Qed.

Lemma dict_get_Ok d k v : dict_get d k = Ok v → (k, v) ∈ d.
Proof.
  induction d as [|[k0 v0] d IH]; simpl; [done|].
  case_decide as Hk.
  - intros [= ->]. subst. by left.
  - intros ?. right. by apply IH.
Qed.

Lemma dict_get_key d k : k ∈ dict_keys d → ∃ v, dict_get d k = Ok v.
Proof.
  unfold dict_keys. induction d as [|[k0 v0] d IH]; simpl.
  - by intros ?%elem_of_nil.
  - case_decide as Hk; [by eauto|].
    intros [?|?]%elem_of_cons; [congruence|by apply IH].
Qed.

Lemma dict_get_no_key d k : k ∉ dict_keys d → dict_get d k = Raise KeyError.
Proof.
  unfold dict_keys. induction d as [|[k0 v0] d IH]; simpl; [done|].
  intros [Hne Hnot]%not_elem_of_cons. rewrite decide_False by done.
  by apply IH.
Qed.
End dict_facts.

(** The dictionary [dict(zip(ks, range(len(ks))))] maps a key to one of
    its positions in [ks]. *)
Lemma dict_get_positions {K} `{EqDecision K} (ks : list K) k v :
  dict_get (dict_of (zip ks (range (length ks)))) k = Ok v →
  0 ≤ v < Z.of_nat (length ks) ∧ ks !! Z.to_nat v = Some k.
Proof.
  intros [j Hj]%dict_get_Ok%dict_entries_of%list_elem_of_lookup.
  apply lookup_zip_with_Some in Hj as (k' & v' & [= <- <-] & Hk & Hv).
  unfold range in Hv. rewrite list_lookup_fmap in Hv.
  destruct (seq 0 (length ks) !! j) as [j'|] eqn:Hseq; [|done].
  apply lookup_seq in Hseq as [-> Hlt]. injection Hv as <-.
  simpl. rewrite Nat2Z.id. split; [lia|done].
Qed.

Lemma dict_keys_positions {K} `{EqDecision K} (ks : list K) k :
  k ∈ dict_keys (dict_of (zip ks (range (length ks)))) ↔ k ∈ ks.
Proof.
  rewrite dict_keys_of, fst_zip; [done|]. by rewrite length_range.
Qed.

(** ** [MyGame.matrixBuilder] *)

(** [M'] is [M] with the cells of [P] set to 1. *)
Definition fills (P : nat → nat → Prop) (M M' : ndarray) : Prop :=
  shape0 M' = shape0 M ∧ shape1 M' = shape1 M ∧
  ∀ r c, (data M' r c = 1 ∧ (P r c ∨ data M r c = 1)) ∨
         (¬ P r c ∧ data M' r c = data M r c).

Lemma fills_iff (P Q : nat → nat → Prop) M M' :
  (∀ r c, P r c ↔ Q r c) → fills P M M' → fills Q M M'.
Proof.
  intros HPQ (H0 & H1 & Hc). split; [done|]. split; [done|].
  intros r c. destruct (Hc r c) as [[? ?]|[? ?]]; rewrite <-HPQ; auto.
Qed.

Lemma fills_nothing M : fills (λ _ _, False) M M.
Proof. split; [done|]. split; [done|]. intros r c. right. tauto. Qed.

Lemma setitem_fills M i j :
  0 ≤ i < Z.of_nat (shape0 M) → 0 ≤ j < Z.of_nat (shape1 M) →
  ∃ M', setitem M i j 1 = Ok M' ∧
        fills (λ r c, r = Z.to_nat i ∧ c = Z.to_nat j) M M'.
Proof.
  intros Hi Hj. unfold setitem. rewrite !norm_index_nonneg by done. simpl.
  eexists. split; [done|]. split; [done|]. split; [done|]. simpl.
  intros r c. case_decide; [left|right]; tauto.
Qed.

Lemma for_each_fills {X} (P : X → nat → nat → Prop) (n m : nat)
    (xs : list X) (body : X → ndarray → result ndarray) M :
  shape0 M = n → shape1 M = m →
  (∀ x M0, x ∈ xs → shape0 M0 = n → shape1 M0 = m →
     ∃ M1, body x M0 = Ok M1 ∧ fills (P x) M0 M1) →
  ∃ M', for_each xs body M = Ok M' ∧
        fills (λ r c, ∃ x, x ∈ xs ∧ P x r c) M M'.
Proof.
  revert M. induction xs as [|x xs IH]; intros M H0 H1 Hbody; simpl.
  - exists M. split; [done|]. eapply fills_iff, fills_nothing.
    intros r c. split; [done|]. by intros (x & ?%elem_of_nil & _).
  - destruct (Hbody x M) as (M1 & -> & Hs0 & Hs1 & Hx); [left|done|done|].
    simpl. destruct (IH M1) as (M' & -> & Hs0' & Hs1' & Hxs);
      [congruence|congruence| |].
    { intros y M0 Hy. apply Hbody. by right. }
    exists M'. split; [done|]. split; [congruence|]. split; [congruence|].
    intros r c.
    destruct (Hx r c) as [[Hx1 Hxp]|[Hxn Hxe]],
             (Hxs r c) as [[Hy1 Hyp]|[Hyn Hye]].
    + left. split; [done|]. destruct Hyp as [(y & Hy & HP)|_].
      * left. exists y. split; [by right|done].
      * destruct Hxp as [HP|?]; [|by right].
        left. exists x. split; [left|done].
    + left. split; [congruence|]. destruct Hxp as [HP|?]; [|by right].
      left. exists x. split; [left|done].
    + left. split; [done|]. destruct Hyp as [(y & Hy & HP)|HM1].
      * left. exists y. split; [by right|done].
      * right. congruence.
    + right. split; [|congruence].
      intros (y & [->|Hy]%elem_of_cons & HP); [done|].
      apply Hyn. by exists y.
Qed.

Section matrixBuilder_facts.
Context {Act : Type} `{EqDecision Act} (game : Game Act).
Context (states : list Z) (actions : list Act).

Local Abbreviation states_dict := (dict_of (zip states (range (length states)))).
Local Abbreviation actions_dict :=
  (dict_of (zip actions (range (length actions)))).

(** The lines 89-96 of the inner loop. *)
Definition cell_body (s : Z) (a : Act) (matrix_A : ndarray) : result ndarray :=
  match delta game s a with
  | None => Ok matrix_A
  | Some ds =>
      i ← dict_get states_dict s;
      j ← dict_get states_dict ds;
      k ← dict_get actions_dict a;
      setitem matrix_A i j 1
  end.

Lemma matrixBuilder_eq :
  matrixBuilder game states actions
  = for_each (dict_keys states_dict)
      (λ s M, for_each (dict_keys actions_dict) (cell_body s) M)
      (zeros (length states) (length states)).
Proof. reflexivity. Qed.

Lemma cell_body_cases s a M0 :
  s ∈ states → a ∈ actions →
  shape0 M0 = length states → shape1 M0 = length states →
  match cell_body s a M0 with
  | Ok M1 =>
      (∀ ds, delta game s a = Some ds → ds ∈ states) ∧
      fills (λ r c, ∃ ds, delta game s a = Some ds ∧
                          dict_get states_dict s = Ok (Z.of_nat r) ∧
                          dict_get states_dict ds = Ok (Z.of_nat c)) M0 M1
  | Raise e =>
      e = KeyError ∧ ∃ ds, delta game s a = Some ds ∧ ds ∉ states
  end.
Proof.
  intros Hs Ha H0 H1. unfold cell_body.
  destruct (delta game s a) as [ds|] eqn:Hd.
  - destruct (dict_get_key states_dict s) as [i Hi];
      [by apply dict_keys_positions|].
    destruct (dict_get_key actions_dict a) as [k Hk];
      [by apply dict_keys_positions|].
    destruct (decide (ds ∈ states)) as [Hds|Hds].
    + destruct (dict_get_key states_dict ds) as [j Hj];
        [by apply dict_keys_positions|].
      destruct (dict_get_positions _ _ _ Hi) as [Hir _].
      destruct (dict_get_positions _ _ _ Hj) as [Hjr _].
      destruct (setitem_fills M0 i j) as (M1 & HM1 & Hfill); [lia|lia|].
      replace (dict_get states_dict s ≫= _) with (Ok (A:=ndarray) M1).
      2:{ rewrite Hi. cbn [mbind result_bind]. rewrite Hj.
          cbn [mbind result_bind]. rewrite Hk. done. }
      split; [by intros ds' [= <-]|].
      eapply fills_iff; [|exact Hfill]. intros r c. split.
      * intros [-> ->]. exists ds. rewrite !Z2Nat.id by lia. done.
      * intros (ds' & [= <-] & Hr & Hc).
        rewrite Hi in Hr. rewrite Hj in Hc.
        injection Hr as ->. injection Hc as ->. by rewrite !Nat2Z.id.
    + replace (dict_get states_dict s ≫= _)
        with (Raise (A:=ndarray) KeyError).
      2:{ rewrite Hi. cbn [mbind result_bind].
          rewrite (dict_get_no_key states_dict ds); [done|].
          intros Hkey. by apply Hds, dict_keys_positions. }
      split; [done|]. by exists ds.
  - split; [done|]. eapply fills_iff, fills_nothing.
    intros r c. split; [done|]. by intros (ds & ? & _).
Qed.

(** With a transition function that stays within the declared states the
    two loops set to 1 the cells [(states[s], states[ds])] of the
    transitions [delta(s, a) = ds] and leave the other cells at 0. *)
Lemma matrixBuilder_fills
    (Hclosed : ∀ s a ds, s ∈ states → a ∈ actions →
                 delta game s a = Some ds → ds ∈ states) :
  ∃ matrix_A,
    matrixBuilder game states actions = Ok matrix_A ∧
    shape0 matrix_A = length states ∧ shape1 matrix_A = length states ∧
    ∀ r c,
      (data matrix_A r c = 1 ∧
       ∃ s a ds, s ∈ states ∧ a ∈ actions ∧ delta game s a = Some ds ∧
                 dict_get states_dict s = Ok (Z.of_nat r) ∧
                 dict_get states_dict ds = Ok (Z.of_nat c)) ∨
      (data matrix_A r c = 0 ∧
       ¬ ∃ s a ds, s ∈ states ∧ a ∈ actions ∧ delta game s a = Some ds ∧
                   dict_get states_dict s = Ok (Z.of_nat r) ∧
                   dict_get states_dict ds = Ok (Z.of_nat c)).
Proof.
  rewrite matrixBuilder_eq.
  set (P := λ (s : Z) (a : Act) (r c : nat),
         ∃ ds, delta game s a = Some ds ∧
               dict_get states_dict s = Ok (Z.of_nat r) ∧
               dict_get states_dict ds = Ok (Z.of_nat c)).
  edestruct (for_each_fills
               (λ s r c, ∃ a, a ∈ dict_keys actions_dict ∧ P s a r c)
               (length states) (length states) (dict_keys states_dict))
    as (M & -> & HM0 & HM1 & Hcells); [done|done| |].
  { intros s M0 Hs H0 H1. apply (dict_keys_positions states s) in Hs.
    apply (for_each_fills (P s) (length states) (length states));
      [done|done|].
    intros a M1 Ha H0' H1'. apply (dict_keys_positions actions a) in Ha.
    pose proof (cell_body_cases s a M1 Hs Ha H0' H1') as Hcase.
    destruct (cell_body s a M1) as [M2|e]; [|].
    - exists M2. split; [done|]. apply Hcase.
    - destruct Hcase as (_ & ds & Hd & Hds). destruct Hds. by eapply Hclosed. }
  simpl in HM0, HM1.
  exists M. split; [done|]. split; [done|]. split; [done|].
  intros r c.
  destruct (Hcells r c) as [[Hone [(s & Hs & a & Ha & ds & Hd & Hr & Hc)|Hz]]
                            |[Hnone Hz]]; simpl in *.
  - left. split; [done|]. exists s, a, ds.
    apply (dict_keys_positions states s) in Hs.
    apply (dict_keys_positions actions a) in Ha. done.
  - done.
  - right. split; [done|]. intros (s & a & ds & Hs & Ha & Hd & Hr & Hc).
    apply Hnone. exists s. split; [by apply dict_keys_positions|].
    exists a. split; [by apply dict_keys_positions|]. by exists ds.
Qed.

(** X1: for pairwise distinct states and a transition function that stays
    within them, [matrixBuilder] returns a square matrix over the states
    whose cells are 0 or 1, and cell [(i, j)] is 1 exactly when some action
    leads from the [i]-th state to the [j]-th state. *)
Theorem matrixBuilder_adjacency
    (Hstates : NoDup states)
    (Hclosed : ∀ s a ds, s ∈ states → a ∈ actions →
                 delta game s a = Some ds → ds ∈ states) :
  ∃ matrix_A,
    matrixBuilder game states actions = Ok matrix_A ∧
    shape0 matrix_A = length states ∧ shape1 matrix_A = length states ∧
    ∀ (i j : nat) si sj,
      states !! i = Some si → states !! j = Some sj →
      (getitem matrix_A (Z.of_nat i) (Z.of_nat j) = Ok 1 ↔
       ∃ a, a ∈ actions ∧ delta game si a = Some sj) ∧
      (getitem matrix_A (Z.of_nat i) (Z.of_nat j) = Ok 1 ∨
       getitem matrix_A (Z.of_nat i) (Z.of_nat j) = Ok 0).
Proof.
  destruct (matrixBuilder_fills Hclosed) as (M & HM & HM0 & HM1 & Hcells).
  exists M. split; [done|]. split; [done|]. split; [done|].
  intros i j si sj Hi Hj.
  pose proof (lookup_lt_Some _ _ _ Hi). pose proof (lookup_lt_Some _ _ _ Hj).
  rewrite getitem_nonneg, !Nat2Z.id by lia.
  assert (Hpos : ∀ (k : nat) sk, states !! k = Some sk →
            dict_get states_dict sk = Ok (Z.of_nat k)).
  { intros k sk Hk.
    destruct (dict_get_key states_dict sk) as [v Hv];
      [apply dict_keys_positions; by eapply list_elem_of_lookup_2|].
    destruct (dict_get_positions _ _ _ Hv) as [Hvr Hvk].
    rewrite Hv. f_equal.
    pose proof (NoDup_lookup _ _ _ _ Hstates Hvk Hk). lia. }
  destruct (Hcells i j) as [[Hone (s & a & ds & Hs & Ha & Hd & Hr & Hc)]
                            |[Hz Hnone]].
  - rewrite Hone. split; [|by left]. split; [|done].
    intros _. exists a. split; [done|].
    apply dict_get_positions in Hr as [_ Hr].
    apply dict_get_positions in Hc as [_ Hc].
    rewrite Nat2Z.id in Hr, Hc. congruence.
  - rewrite Hz. split; [|by right]. split; [done|].
    intros (a & Ha & Hd). destruct Hnone. exists si, a, sj.
    split; [by eapply list_elem_of_lookup_2|]. split; [done|].
    split; [done|]. split; by apply Hpos.
Qed.

Lemma row_body_cases s M0 :
  s ∈ states →
  shape0 M0 = length states ∧ shape1 M0 = length states →
  match for_each (dict_keys actions_dict) (cell_body s) M0 with
  | Ok M1 =>
      (shape0 M1 = length states ∧ shape1 M1 = length states) ∧
      ∀ a ds, a ∈ actions → delta game s a = Some ds → ds ∈ states
  | Raise e => e = KeyError
  end.
Proof.
  intros Hs HM0.
  pose proof (for_each_cases
    (λ M, shape0 M = length states ∧ shape1 M = length states)
    (dict_keys actions_dict) (cell_body s) M0) as Hloop.
  assert (Hcell : ∀ a M, a ∈ dict_keys actions_dict →
            shape0 M = length states ∧ shape1 M = length states →
            match cell_body s a M with
            | Ok M1 =>
                (shape0 M1 = length states ∧ shape1 M1 = length states) ∧
                ∀ ds, delta game s a = Some ds → ds ∈ states
            | Raise e => e = KeyError
            end).
  { intros a M Ha [H0 H1]. apply (dict_keys_positions actions a) in Ha.
    pose proof (cell_body_cases s a M Hs Ha H0 H1) as Hc.
    destruct (cell_body s a M) as [M1|e]; [|by destruct Hc].
    destruct Hc as (Hcl & Hs0 & Hs1 & _). split; [split; congruence|done]. }
  destruct (for_each (dict_keys actions_dict) (cell_body s) M0) as [M1|e].
  - destruct Hloop as [HM1 Hall]; [|done|].
    { intros a M M' Ha HM HM'. specialize (Hcell a M Ha HM).
      rewrite HM' in Hcell. apply Hcell. }
    split; [done|]. intros a ds Ha Hd.
    apply (dict_keys_positions actions a) in Ha.
    destruct (Hall a Ha) as (M & M' & HM & HM').
    specialize (Hcell a M Ha HM). rewrite HM' in Hcell. by apply Hcell.
  - destruct Hloop as (a & M & Ha & HM & Hr); [|done|].
    { intros a M M' Ha HM HM'. specialize (Hcell a M Ha HM).
      rewrite HM' in Hcell. apply Hcell. }
    specialize (Hcell a M Ha HM). by rewrite Hr in Hcell.
Qed.

(** X2: when some action leads from a declared state to a state that is
    not declared, [matrixBuilder] raises [KeyError] (at [states[ds]],
    line 93) and returns no matrix. *)
Theorem matrixBuilder_KeyError (s : Z) (a : Act) (ds : Z)
    (Hs : s ∈ states) (Ha : a ∈ actions)
    (Hdelta : delta game s a = Some ds) (Hds : ds ∉ states) :
  matrixBuilder game states actions = Raise KeyError.
Proof.
  rewrite matrixBuilder_eq.
  pose proof (for_each_cases
    (λ M, shape0 M = length states ∧ shape1 M = length states)
    (dict_keys states_dict)
    (λ s M, for_each (dict_keys actions_dict) (cell_body s) M)
    (zeros (length states) (length states))) as Hloop.
  cbv beta in Hloop.
  assert (Hkeep : ∀ x M M', x ∈ dict_keys states_dict →
            shape0 M = length states ∧ shape1 M = length states →
            for_each (dict_keys actions_dict) (cell_body x) M = Ok M' →
            shape0 M' = length states ∧ shape1 M' = length states).
  { intros x M M' Hx HM HM'. apply (dict_keys_positions states x) in Hx.
    pose proof (row_body_cases x M Hx HM) as Hrow.
    rewrite HM' in Hrow. apply Hrow. }
  specialize (Hloop Hkeep (conj eq_refl eq_refl)).
  destruct (for_each (dict_keys states_dict) _ _) as [M1|e].
  - destruct Hloop as [_ Hall].
    destruct (Hall s) as (M & M' & HM & HM');
      [by apply (dict_keys_positions states s)|].
    pose proof (row_body_cases s M Hs HM) as Hrow.
    rewrite HM' in Hrow. destruct Hrow as [_ Hcl].
    destruct Hds. by eapply Hcl.
  - destruct Hloop as (x & M & Hx & HM & Hr).
    apply (dict_keys_positions states x) in Hx.
    pose proof (row_body_cases x M Hx HM) as Hrow.
    rewrite Hr in Hrow. by subst e.
Qed.
End matrixBuilder_facts.

Lemma matrixBuilder_adjacency_witness :
  ∃ matrix_A,
    matrixBuilder (JobstmannGame [3]) (states (JobstmannGame [3]))
                  (actions (JobstmannGame [3])) = Ok matrix_A ∧
    shape0 matrix_A = length (states (JobstmannGame [3])) ∧
    shape1 matrix_A = length (states (JobstmannGame [3])) ∧
    ∀ (i j : nat) si sj,
      states (JobstmannGame [3]) !! i = Some si →
      states (JobstmannGame [3]) !! j = Some sj →
      (getitem matrix_A (Z.of_nat i) (Z.of_nat j) = Ok 1 ↔
       ∃ a, a ∈ actions (JobstmannGame [3]) ∧
            delta (JobstmannGame [3]) si a = Some sj) ∧
      (getitem matrix_A (Z.of_nat i) (Z.of_nat j) = Ok 1 ∨
       getitem matrix_A (Z.of_nat i) (Z.of_nat j) = Ok 0).
Proof.
  apply (matrixBuilder_adjacency (JobstmannGame [3])).
  - by_computation.
  - intros s a ds _ Ha Hd. simpl in Ha, Hd.
    case_decide; [|done]. injection Hd as <-.
    repeat (apply elem_of_cons in Ha as [->|Ha]; [by_computation|]).
    by apply elem_of_nil in Ha.
Defined.

Lemma matrixBuilder_KeyError_witness :
  matrixBuilder (EdgeGame 2 [(0, 1); (1, 2)] [] []) (range 2)
                [(0, 1); (1, 2)] = Raise KeyError.
Proof.
  apply (matrixBuilder_KeyError (EdgeGame 2 [(0, 1); (1, 2)] [] [])
           (range 2) [(0, 1); (1, 2)] 1 (1, 2) 2);
    [by_computation|by_computation|reflexivity|by_computation].
Defined.

(** ** The helper [adj] *)

Lemma filter_ext_in {A} (P Q : A → Prop) `{∀ x, Decision (P x)}
    `{∀ x, Decision (Q x)} (l : list A) :
  (∀ x, x ∈ l → P x ↔ Q x) → filter P l = filter Q l.
Proof.
  induction l as [|x l IH]; intros Hext; [done|].
  rewrite !filter_cons, IH by (intros y Hy; apply Hext; by right).
  destruct (decide (P x)) as [HP|HP], (decide (Q x)) as [HQ|HQ]; try done.
  - destruct HQ. apply Hext; [left|done].
  - destruct HP. apply Hext; [left|done].
Qed.

Lemma norm_index_Ok_range len k r :
  norm_index len k = Ok r → - Z.of_nat len ≤ k < Z.of_nat len.
Proof. unfold norm_index. repeat case_decide; intros [= <-]; lia. Qed.

(** X3: for a row index that numpy accepts, [adj] returns the columns of
    that row that hold a 1, each once and in increasing order: the column
    indices [0 .. shape[1]-1] filtered by [matrix[row, col] == 1]. *)
Theorem adj_columns (matrix : ndarray) (row : Z)
    (Hrow : - Z.of_nat (shape0 matrix) ≤ row < Z.of_nat (shape0 matrix)) :
  adj matrix row
  = Ok (filter (λ col, getitem matrix row col = Ok 1)
               (range (shape1 matrix))) ∧
  ∀ temp, adj matrix row = Ok temp →
    NoDup temp ∧
    ∀ col, col ∈ temp ↔
      0 ≤ col < Z.of_nat (shape1 matrix) ∧ getitem matrix row col = Ok 1.
Proof.
  destruct (norm_index_wrapped _ _ Hrow) as [r Hr].
  assert (Heq : adj matrix row
    = Ok (filter (λ col, getitem matrix row col = Ok 1)
                 (range (shape1 matrix)))).
  { rewrite (adj_Ok matrix row r Hr). f_equal. unfold row_ones.
    apply filter_ext_in. intros col Hcol%elem_of_range.
    rewrite (getitem_row matrix row r) by done. split; congruence. }
  split; [done|]. rewrite Heq. intros temp [= <-]. split.
  - apply NoDup_filter, NoDup_range.
  - intros col. rewrite list_elem_of_filter, elem_of_range. tauto.
Qed.

Lemma adj_columns_witness :
  adj (graph_of (JobstmannGame [3])) (-3)
  = Ok (filter (λ col, getitem (graph_of (JobstmannGame [3])) (-3) col = Ok 1)
               (range (shape1 (graph_of (JobstmannGame [3]))))) ∧
  ∀ temp, adj (graph_of (JobstmannGame [3])) (-3) = Ok temp →
    NoDup temp ∧
    ∀ col, col ∈ temp ↔
      0 ≤ col < Z.of_nat (shape1 (graph_of (JobstmannGame [3]))) ∧
      getitem (graph_of (JobstmannGame [3])) (-3) col = Ok 1.
Proof.
  apply (adj_columns (graph_of (JobstmannGame [3])) (-3)).
  vm_compute. split; [discriminate|reflexivity].
Defined.

(** X4: for a row index outside [-shape[0], shape[0]) [adj] raises at the
    first column it reads: [OverflowError] when the row index is in
    [2^63, 2^64), [IndexError] otherwise; only a matrix without columns
    gives the empty list instead. *)
Theorem adj_row_out_of_range (matrix : ndarray) (row : Z)
    (Hrows : Z.of_nat (shape0 matrix) < 2 ^ 63)
    (Hrow : row < - Z.of_nat (shape0 matrix) ∨ Z.of_nat (shape0 matrix) ≤ row) :
  adj matrix row
  = if decide (shape1 matrix = 0%nat) then Ok []
    else Raise (if decide (2 ^ 63 ≤ row < 2 ^ 64)
                then OverflowError else IndexError).
Proof.
  case_decide as Hcols.
  - by apply adj_empty.
  - apply adj_Raise; [|done]. apply norm_index_Raise. split; [done|].
    unfold index_exn. destruct (decide (2 ^ 63 ≤ row < 2 ^ 64)) as [Hr|Hr].
    + by rewrite decide_True.
    + rewrite decide_False; [done|tauto].
Qed.

Lemma adj_row_out_of_range_witness :
  adj (graph_of (JobstmannGame [3])) 4 = Raise IndexError ∧
  adj (graph_of (JobstmannGame [3])) (2 ^ 63) = Raise OverflowError.
Proof.
  assert (Hrows : Z.of_nat (shape0 (graph_of (JobstmannGame [3]))) < 2 ^ 63)
    by reflexivity.
  split.
  - assert (Hrow : 4 < - Z.of_nat (shape0 (graph_of (JobstmannGame [3])))
                   ∨ Z.of_nat (shape0 (graph_of (JobstmannGame [3]))) ≤ 4)
      by (right; vm_compute; discriminate).
    exact (adj_row_out_of_range (graph_of (JobstmannGame [3])) 4 Hrows Hrow).
  - assert (Hrow : 2 ^ 63 < - Z.of_nat (shape0 (graph_of (JobstmannGame [3])))
                   ∨ Z.of_nat (shape0 (graph_of (JobstmannGame [3]))) ≤ 2 ^ 63)
      by (right; vm_compute; discriminate).
    exact (adj_row_out_of_range (graph_of (JobstmannGame [3])) (2 ^ 63)
             Hrows Hrow).
Defined.

(** X5: called on the transpose, as the solver does, [adj] returns the
    predecessors: [adj(G.T, v)] is the list of the rows [u] of [G] with
    [G[u, v] == 1]. *)
Theorem adj_transpose_predecessors (G : ndarray) (v : Z)
    (Hv : 0 ≤ v < Z.of_nat (shape1 G)) :
  adj (transpose G) v
  = Ok (filter (λ u, getitem G u v = Ok 1) (range (shape0 G))).
Proof.
  rewrite (adj_Ok (transpose G) v (Z.to_nat v))
    by (by apply norm_index_nonneg).
  f_equal. unfold row_ones. simpl.
  apply filter_ext_in. intros u Hu%elem_of_range.
  rewrite getitem_nonneg by done. split; congruence.
Qed.

Lemma adj_transpose_predecessors_witness :
  adj (transpose (graph_of (JobstmannGame [3]))) 3
  = Ok (filter (λ u, getitem (graph_of (JobstmannGame [3])) u 3 = Ok 1)
               (range (shape0 (graph_of (JobstmannGame [3]))))).
Proof.
  apply (adj_transpose_predecessors (graph_of (JobstmannGame [3])) 3).
  vm_compute. split; [discriminate|reflexivity].
Defined.

(** ** The solver on degenerate inputs *)

(** X6, empty target set: when [G] has at least as many columns as rows,
    the solver returns the empty worklist for the empty target set,
    whatever the game, [T] and the attracting player are. *)
Theorem solver_empty_target {Act} (game : Game Act) (G T : ndarray) (i : Z)
    (Hshape : (shape0 G ≤ shape1 G)%nat) :
  solver game G T [] i = Some (Ok []).
Proof.
  unfold solver, solver_fuel.
  by rewrite removed_states_Ok, init_tmpMap_Ok by done.
Qed.

Lemma solver_empty_target_witness :
  solver (JobstmannGame []) (graph_of (JobstmannGame []))
         (transpose (graph_of (JobstmannGame []))) [] 1 = Some (Ok []).
Proof.
  apply (solver_empty_target (JobstmannGame [])
           (graph_of (JobstmannGame []))
           (transpose (graph_of (JobstmannGame []))) 1).
  vm_compute. by_computation.
Defined.

(** X7, a matrix [G] with fewer columns than rows: the preprocessing pass
    reads the diagonal cell [G[iter, iter]] of every row, so the solver
    raises [IndexError] before the worklist is built, for every target
    set. *)
Theorem solver_too_few_columns {Act} (game : Game Act) (G T : ndarray)
    (final : list Z) (i : Z)
    (Hshape : (shape1 G < shape0 G)%nat) :
  removed_states game G = Raise IndexError ∧
  solver game G T final i = Some (Raise IndexError).
Proof.
  assert (Hrem : removed_states game G = Raise IndexError).
  { unfold removed_states.
    rewrite (range_split (shape1 G) (shape0 G)) by done.
    rewrite for_each_app.
    rewrite (for_each_append (removed_by game G)).
    - assert (Hget : getitem G (Z.of_nat (shape1 G)) (Z.of_nat (shape1 G))
                     = Raise IndexError).
      { unfold getitem.
        rewrite (norm_index_nonneg (shape0 G)) by lia.
        cbn [mbind result_bind].
        destruct (norm_index (shape1 G) (Z.of_nat (shape1 G))) as [r|e] eqn:Hn.
        - apply norm_index_Ok_range in Hn. lia.
        - apply norm_index_Raise in Hn as [_ ->].
          by rewrite index_exn_small by lia. }
      cbn [mbind result_bind for_each]. by rewrite Hget.
    - intros iter Removed Hiter%elem_of_range.
      rewrite getitem_nonneg by lia. cbn [mbind result_bind].
      unfold removed_by. case_decide; [|by rewrite app_nil_r].
      rewrite <- (range_split (shape1 G) (shape0 G)) by done.
      apply for_each_append.
      intros iter1 Removed1 Hiter1%elem_of_range.
      rewrite getitem_nonneg by lia. cbn [mbind result_bind].
      case_decide; [done|by rewrite app_nil_r]. }
  split; [done|]. unfold solver, solver_fuel. by rewrite Hrem.
Qed.

Lemma solver_too_few_columns_witness :
  removed_states (JobstmannGame [0]) (zeros 2 1) = Raise IndexError ∧
  solver (JobstmannGame [0]) (zeros 2 1) (transpose (zeros 2 1)) [0] 1
  = Some (Raise IndexError).
Proof.
  apply (solver_too_few_columns (JobstmannGame [0]) (zeros 2 1)
           (transpose (zeros 2 1)) [0] 1).
  simpl. lia.
Defined.

(** ** The states of the attracting player (rule (a)) *)

Section owned_state.
Context {Act : Type} (game : Game Act) (G T : ndarray) (i : Z) (n : nat).
Hypothesis HG0 : shape0 G = n.
Hypothesis HG1 : shape1 G = n.
Hypothesis HT0 : shape0 T = n.
Hypothesis HT1 : shape1 T = n.
Context (final Removed : list Z) (s : Z).
Hypothesis Hs : 0 ≤ s < Z.of_nat n.
Hypothesis Hturn : turn game s = i.
Hypothesis HsR : s ∉ Removed.

(** [s] is in the worklist or has not been visited yet. *)
Definition unvisited_or_won (st : list Z * list Z) : Prop :=
  s ∈ st.1 ∨ st.2 !! Z.to_nat s = Some (-1).

(** [s] is in the worklist as soon as the cursor has passed a state it
    has an edge to. *)
Definition owned_inv (index : nat) (st : list Z * list Z) : Prop :=
  unvisited_or_won st ∧
  ((∃ j t, (j < index)%nat ∧ st.1 !! j = Some t ∧
           data T (Z.to_nat t) (Z.to_nat s) = 1) → s ∈ st.1).

Lemma visit_pure_owned_self st :
  length st.2 = n → unvisited_or_won st →
  s ∈ (visit_pure game G i Removed st s).1.
Proof.
  destruct st as [A tmpMap]. simpl. intros Hlen [Hin|Hm].
  - destruct (visit_pure_grow game G i Removed (A, tmpMap) s) as [-> | ->];
      [done|]. apply elem_of_app. by left.
  - simpl in Hm.
    destruct (visit_pure_cases game G i Removed A tmpMap s)
      as (t & t' & app & Ht & Hstep & ->); [lia|].
    rewrite Ht in Hm. injection Hm as ->.
    unfold step_cell in Hstep.
    rewrite (decide_False (P := s ∈ Removed)) in Hstep by done.
    rewrite (decide_True (P := (-1 = -1))) in Hstep by done.
    rewrite (decide_True (P := turn game s = i)) in Hstep by done.
    rewrite (decide_False (P := _ ∧ _)) in Hstep by lia.
    injection Hstep as <- <-. simpl. apply elem_of_app. right. by left.
Qed.

Lemma visit_pure_owned_other st v0 :
  v0 ≠ s → 0 ≤ v0 → unvisited_or_won st →
  unvisited_or_won (visit_pure game G i Removed st v0).
Proof.
  intros Hne Hv0 [Hin|Hm].
  - left. destruct (visit_pure_grow game G i Removed st v0) as [-> | ->];
      [done|]. apply elem_of_app. by left.
  - right. unfold visit_pure. destruct (st.2 !! Z.to_nat v0); [|done].
    destruct (step_cell game G i Removed v0 z). simpl.
    rewrite list_lookup_insert_ne by lia. done.
Qed.

Lemma foldl_visit_pure_owned st preds :
  Forall (λ v0, 0 ≤ v0 < Z.of_nat n) preds → length st.2 = n →
  unvisited_or_won st →
  unvisited_or_won (foldl (visit_pure game G i Removed) st preds) ∧
  (s ∈ preds → s ∈ (foldl (visit_pure game G i Removed) st preds).1).
Proof.
  intros Hpreds. revert st.
  induction Hpreds as [|v0 preds Hv0 _ IH]; intros st Hlen Hst; simpl.
  - split; [done|]. by intros ?%elem_of_nil.
  - destruct (decide (v0 = s)) as [->|Hne].
    + assert (Hwon : s ∈ (visit_pure game G i Removed st s).1)
        by (by apply visit_pure_owned_self).
      destruct (IH (visit_pure game G i Removed st s)) as [IH1 _];
        [by rewrite visit_pure_length|by left|].
      destruct (foldl_visit_pure_grow game G i Removed
                  (visit_pure game G i Removed st s) preds) as (l & Hl & _).
      assert (s ∈ (foldl (visit_pure game G i Removed)
                     (visit_pure game G i Removed st s) preds).1).
      { rewrite Hl. apply elem_of_app. by left. }
      split; [by left|done].
    + destruct (IH (visit_pure game G i Removed st v0)) as [IH1 IH2];
        [by rewrite visit_pure_length
        |apply visit_pure_owned_other; [done|lia|done]|].
      split; [done|]. intros [?|?]%elem_of_cons; [congruence|auto].
Qed.

Lemma owned_inv_init : owned_inv 0 (final, tmpMap0 G final).
Proof.
  split.
  - destruct (decide (s ∈ final)) as [Hin|Hnin]; [by left|].
    right. simpl. rewrite lookup_tmpMap0 by lia. by rewrite decide_False.
  - intros (j & t & Hj & _). lia.
Qed.

Lemma owned_inv_step index st v :
  worklist_inv n final Removed st → st.1 !! index = Some v →
  0 ≤ v < Z.of_nat n → owned_inv index st →
  owned_inv (S index)
    (foldl (visit_pure game G i Removed) st (row_ones T (Z.to_nat v))).
Proof.
  intros Hinv Hv Hvr [Hst Hpassed].
  destruct (foldl_visit_pure_owned st (row_ones T (Z.to_nat v)))
    as [Hst' Hself]; [by eapply row_ones_range|apply Hinv|done|].
  destruct (foldl_visit_pure_grow game G i Removed st
              (row_ones T (Z.to_nat v))) as (l & Hl & _).
  split; [done|]. intros (j & t & Hj & Ht & Hedge).
  pose proof (lookup_lt_Some _ _ _ Hv) as Hidx.
  rewrite Hl in Ht. rewrite lookup_app_l in Ht by lia.
  destruct (decide (j = index)) as [->|Hne].
  - assert (t = v) as -> by congruence.
    apply Hself, elem_of_row_ones. split; [lia|done].
  - rewrite Hl. apply elem_of_app. left. apply Hpassed.
    exists j, t. split; [lia|done].
Qed.
End owned_state.

(** ** What the returned worklist is closed under *)

(** Paths of [G] over the declared states that end in a target. *)
Inductive reaches (G : ndarray) (final : list Z) : Z → Prop :=
  | reaches_target s : s ∈ final → reaches G final s
  | reaches_edge s t :
      0 ≤ s < Z.of_nat (shape0 G) → 0 ≤ t < Z.of_nat (shape1 G) →
      getitem G s t = Ok 1 → reaches G final t → reaches G final s.

(** The attractor of player 1 as the solver understands it: the targets,
    the states of player 1 outside [Removed] with an edge into the set,
    and the states of player 2 outside [Removed] that have a successor
    outside [Removed] and all such successors in the set. *)
Inductive attractor1 {Act} (game : Game Act) (G : ndarray)
    (Removed final : list Z) : Z → Prop :=
  | attractor1_target s : s ∈ final → attractor1 game G Removed final s
  | attractor1_own s t :
      0 ≤ s < Z.of_nat (shape0 G) → turn game s = 1 → s ∉ Removed →
      getitem G s t = Ok 1 → attractor1 game G Removed final t →
      attractor1 game G Removed final s
  | attractor1_opponent s :
      0 ≤ s < Z.of_nat (shape0 G) → turn game s = 2 → s ∉ Removed →
      nonremoved_succs G Removed s ≠ [] →
      (∀ t, t ∈ nonremoved_succs G Removed s →
            attractor1 game G Removed final t) →
      attractor1 game G Removed final s.

Lemma solver_closure {Act} (game : Game Act) (G : ndarray) (i : Z)
    (n : nat) (final : list Z) :
  shape0 G = n → shape1 G = n →
  Forall (λ s, 0 ≤ s < Z.of_nat n) final →
  ∃ A tmpMap,
    solver game G (transpose G) final i = Some (Ok A) ∧
    worklist_inv n final (Removed_states game G) (A, tmpMap) ∧
    witnessed (transpose G) n final (length A) (A, tmpMap) ∧
    (∀ s, 0 ≤ s < Z.of_nat n → turn game s = i →
          s ∉ Removed_states game G →
          (∃ t, t ∈ A ∧ getitem G s t = Ok 1) → s ∈ A) ∧
    (i ≠ 2 →
     ∀ s, 0 ≤ s < Z.of_nat n → turn game s = 2 →
          s ∉ Removed_states game G →
          nonremoved_succs G (Removed_states game G) s ≠ [] →
          (∀ t, t ∈ nonremoved_succs G (Removed_states game G) s → t ∈ A) →
          s ∈ A).
Proof.
  intros HG0 HG1 Hfinal.
  destruct (transpose_square G n HG0 HG1) as [HT0 HT1].
  set (Removed := Removed_states game G).
  destruct (solver_Ok game G (transpose G) i n HG0 HG1 HT0 HT1 final Hfinal
    (λ index st,
       witnessed (transpose G) n final index st ∧
       (∀ s, 0 ≤ s < Z.of_nat n → turn game s = i → s ∉ Removed →
             owned_inv (transpose G) s index st) ∧
       (i ≠ 2 →
        ∀ s, 0 ≤ s < Z.of_nat n → turn game s = 2 → s ∉ Removed →
             nonremoved_succs G Removed s ≠ [] →
             pending G Removed s (visits (transpose G) s index st.1) st)))
    as (A & tmpMap & HA & Hinv & Hw & Ho & Hp).
  { split; [by apply (witnessed_init G (transpose G) n)|]. split.
    - intros s Hs _ _.
      exact (owned_inv_init G (transpose G) n HG0 HG1 HT0 HT1 final s Hs).
    - intros _ s Hs _ _ _.
      exact (pending_init G (transpose G) n HG0 HG1 HT0 HT1 final
               Removed s Hs). }
  { intros index st v Hinv Hv Hvr (Hw & Ho & Hp).
    split; [by apply (witnessed_step game G (transpose G) i n)|]. split.
    - intros s Hs Hturn HsR.
      apply (owned_inv_step game G (transpose G) i n HG0 HG1 HT0 HT1 final
               Removed s Hs Hturn HsR index st v Hinv Hv Hvr).
      by apply Ho.
    - intros Hi s Hs Hturn HsR Hsucc.
      apply (pending_step game G (transpose G) i n HG0 HG1 HT0 HT1 final
               Removed s Hs Hturn Hi HsR Hsucc index st v Hinv Hv Hvr).
      by apply Hp. }
  exists A, tmpMap. split; [done|]. split; [done|]. split; [done|].
  assert (Hr : Forall (λ s, 0 ≤ s < Z.of_nat n) A)
    by apply (worklist_inv_range n final Hfinal _ _ Hinv).
  rewrite Forall_lookup in Hr. split.
  - intros s Hs Hturn HsR (t & [j Hj]%list_elem_of_lookup & Hedge).
    destruct (Ho s Hs Hturn HsR) as [_ Hpassed]. apply Hpassed.
    exists j, t. split; [by eapply lookup_lt_Some|]. split; [done|].
    pose proof (Hr j t Hj) as Htr. simpl.
    rewrite getitem_nonneg in Hedge by lia. congruence.
  - intros Hi s Hs Hturn HsR Hsucc Hall.
    apply (pending_final G (transpose G) n HG0 HG1 HT0 HT1 Removed s Hsucc
             A tmpMap); [done| |done].
    by apply Hp.
Qed.

(** X8, rule (a): for a square game solved with [T = G.T], a target set
    of declared states and any attracting player [i], every declared
    state owned by [i] and outside [Removed] that has an edge to a
    returned state is returned. *)
Theorem rule_a_own_states {Act} (game : Game Act) (G : ndarray) (i : Z)
    (n : nat) (final : list Z)
    (HG0 : shape0 G = n) (HG1 : shape1 G = n)
    (Hfinal : Forall (λ s, 0 ≤ s < Z.of_nat n) final) :
  ∃ Removed A,
    removed_states game G = Ok Removed ∧
    solver game G (transpose G) final i = Some (Ok A) ∧
    ∀ s, 0 ≤ s < Z.of_nat n → turn game s = i → s ∉ Removed →
         (∃ t, t ∈ A ∧ getitem G s t = Ok 1) → s ∈ A.
Proof.
  destruct (solver_closure game G i n final HG0 HG1 Hfinal)
    as (A & tmpMap & HA & _ & _ & Hown & _).
  exists (Removed_states game G), A.
  split; [apply removed_states_Ok; lia|done].
Qed.

Lemma rule_a_own_states_witness :
  ∃ Removed A,
    removed_states (JobstmannGame [3]) (graph_of (JobstmannGame [3]))
    = Ok Removed ∧
    solver (JobstmannGame [3]) (graph_of (JobstmannGame [3]))
           (transpose (graph_of (JobstmannGame [3]))) [3] 1 = Some (Ok A) ∧
    ∀ s, 0 ≤ s < Z.of_nat 4 → turn (JobstmannGame [3]) s = 1 →
         s ∉ Removed →
         (∃ t, t ∈ A ∧ getitem (graph_of (JobstmannGame [3])) s t = Ok 1) →
         s ∈ A.
Proof.
  apply (rule_a_own_states (JobstmannGame [3])
           (graph_of (JobstmannGame [3])) 1 4 [3]); try reflexivity.
  by_computation.
Defined.

(** X9: every returned state is a declared state from which a path of
    [G] leads to a target. *)
Theorem returned_states_reach_target {Act} (game : Game Act) (G : ndarray)
    (i : Z) (n : nat) (final : list Z)
    (HG0 : shape0 G = n) (HG1 : shape1 G = n)
    (Hfinal : Forall (λ s, 0 ≤ s < Z.of_nat n) final) :
  ∃ A,
    solver game G (transpose G) final i = Some (Ok A) ∧
    ∀ s, s ∈ A → 0 ≤ s < Z.of_nat n ∧ reaches G final s.
Proof.
  destruct (solver_closure game G i n final HG0 HG1 Hfinal)
    as (A & tmpMap & HA & Hinv & Hw & _).
  exists A. split; [done|].
  assert (Hr : Forall (λ s, 0 ≤ s < Z.of_nat n) A)
    by apply (worklist_inv_range n final Hfinal _ _ Hinv).
  rewrite Forall_lookup in Hr.
  assert (Hnew : ∃ new, A = final ++ new).
  { destruct Hinv as (_ & new & Hnew & _). by exists new. }
  assert (Hpos : ∀ k s, A !! k = Some s → reaches G final s).
  { induction k as [k IH] using lt_wf_ind. intros s Hk.
    destruct (decide (s ∈ final)) as [Hin|Hnin]; [by constructor|].
    destruct (witnessed_successor G n final (length A) A tmpMap k s
                HG0 HG1 Hw Hnew Hk Hnin) as (j & t & Hjk & Hj & Hedge).
    apply (reaches_edge G final s t); [| |done|by eapply IH].
    - rewrite HG0. by eapply Hr.
    - rewrite HG1. by eapply Hr. }
  intros s [k Hk]%list_elem_of_lookup. split; [by eapply Hr|by eapply Hpos].
Qed.

Lemma returned_states_reach_target_witness :
  ∃ A,
    solver (JobstmannGame [3]) (graph_of (JobstmannGame [3]))
           (transpose (graph_of (JobstmannGame [3]))) [3] 1 = Some (Ok A) ∧
    ∀ s, s ∈ A →
      0 ≤ s < Z.of_nat 4 ∧ reaches (graph_of (JobstmannGame [3])) [3] s.
Proof.
  apply (returned_states_reach_target (JobstmannGame [3])
           (graph_of (JobstmannGame [3])) 1 4 [3]); try reflexivity.
  by_computation.
Defined.

(** X10, one-player games: when every declared state is owned by the
    attracting player [i] and [i] is not 2, no state is removed and the
    solver returns exactly the states from which a path of [G] leads to a
    target. *)
Theorem one_player_backward_reachability {Act} (game : Game Act)
    (G : ndarray) (i : Z) (n : nat) (final : list Z)
    (HG0 : shape0 G = n) (HG1 : shape1 G = n)
    (Hfinal : Forall (λ s, 0 ≤ s < Z.of_nat n) final)
    (Hown : ∀ s, 0 ≤ s < Z.of_nat n → turn game s = i)
    (Hi : i ≠ 2) :
  removed_states game G = Ok [] ∧
  ∃ A,
    solver game G (transpose G) final i = Some (Ok A) ∧
    ∀ s, s ∈ A ↔ reaches G final s.
Proof.
  assert (HR : Removed_states game G = []).
  { destruct (Removed_states game G) as [|v1 R] eqn:HR; [done|].
    assert (Hv1 : v1 ∈ Removed_states game G) by (rewrite HR; left).
    apply elem_of_removed in Hv1 as (v & Hv & _ & _ & Hturn & _).
    rewrite HG0 in Hv. destruct Hi. by rewrite <-(Hown v Hv). }
  split; [rewrite removed_states_Ok by lia; by f_equal|].
  destruct (solver_closure game G i n final HG0 HG1 Hfinal)
    as (A & tmpMap & HA & Hinv & Hw & Hrule & _).
  exists A. split; [done|].
  assert (Hr : Forall (λ s, 0 ≤ s < Z.of_nat n) A)
    by apply (worklist_inv_range n final Hfinal _ _ Hinv).
  rewrite Forall_lookup in Hr.
  assert (Hnew : ∃ new, A = final ++ new).
  { destruct Hinv as (_ & new & Hnew & _). by exists new. }
  intros s. split.
  - intros [k Hk]%list_elem_of_lookup. revert s Hk.
    induction k as [k IH] using lt_wf_ind. intros s Hk.
    destruct (decide (s ∈ final)) as [Hin|Hnin]; [by constructor|].
    destruct (witnessed_successor G n final (length A) A tmpMap k s
                HG0 HG1 Hw Hnew Hk Hnin) as (j & t & Hjk & Hj & Hedge).
    apply (reaches_edge G final s t); [| |done|by eapply IH].
    + rewrite HG0. by eapply Hr.
    + rewrite HG1. by eapply Hr.
  - induction 1 as [s Hs|s t Hs Ht Hedge _ IH].
    + destruct Hnew as [new ->]. apply elem_of_app. by left.
    + apply Hrule; [lia|apply Hown; lia|rewrite HR; apply not_elem_of_nil|].
      by exists t.
Qed.

Lemma one_player_backward_reachability_witness :
  removed_states (EdgeGame 3 [(0, 1); (1, 1)] [0; 1; 2] [1])
                 (graph_of (EdgeGame 3 [(0, 1); (1, 1)] [0; 1; 2] [1]))
  = Ok [] ∧
  ∃ A,
    solver (EdgeGame 3 [(0, 1); (1, 1)] [0; 1; 2] [1])
           (graph_of (EdgeGame 3 [(0, 1); (1, 1)] [0; 1; 2] [1]))
           (transpose (graph_of (EdgeGame 3 [(0, 1); (1, 1)] [0; 1; 2] [1])))
           [1] 1 = Some (Ok A) ∧
    ∀ s, s ∈ A ↔
         reaches (graph_of (EdgeGame 3 [(0, 1); (1, 1)] [0; 1; 2] [1])) [1] s.
Proof.
  apply (one_player_backward_reachability
           (EdgeGame 3 [(0, 1); (1, 1)] [0; 1; 2] [1])
           (graph_of (EdgeGame 3 [(0, 1); (1, 1)] [0; 1; 2] [1])) 1 3 [1]);
    try reflexivity.
  - by_computation.
  - intros s Hs. simpl. rewrite decide_True; [done|].
    assert (s = 0 ∨ s = 1 ∨ s = 2) as [->|[->| ->]] by lia; by_computation.
  - lia.
Defined.

(** X11, completeness for player 1: for a square game solved with
    [T = G.T], a target set of declared states and attracting player 1,
    the returned worklist contains the attractor: the least set that holds
    the targets, every state of player 1 outside [Removed] with an edge
    into the set, and every state of player 2 outside [Removed] with a
    successor outside [Removed] and all such successors in the set. *)
Theorem attractor1_returned {Act} (game : Game Act) (G : ndarray)
    (n : nat) (final : list Z)
    (HG0 : shape0 G = n) (HG1 : shape1 G = n)
    (Hfinal : Forall (λ s, 0 ≤ s < Z.of_nat n) final) :
  ∃ Removed A,
    removed_states game G = Ok Removed ∧
    solver game G (transpose G) final 1 = Some (Ok A) ∧
    ∀ s, attractor1 game G Removed final s → s ∈ A.
Proof.
  destruct (solver_closure game G 1 n final HG0 HG1 Hfinal)
    as (A & tmpMap & HA & Hinv & _ & Hown & Hopp).
  exists (Removed_states game G), A.
  split; [apply removed_states_Ok; lia|]. split; [done|].
  induction 1 as [s Hs|s t Hs Hturn HsR Hedge _ IH
                  |s Hs Hturn HsR Hsucc _ IH].
  - destruct Hinv as (_ & new & Hnew & _). simpl in Hnew. rewrite Hnew.
    apply elem_of_app. by left.
  - apply Hown; [lia|done|done|]. by exists t.
  - apply Hopp; [done|lia|done|done|done|done].
Qed.

Lemma attractor1_returned_witness :
  ∃ Removed A,
    removed_states (JobstmannGame [3]) (graph_of (JobstmannGame [3]))
    = Ok Removed ∧
    solver (JobstmannGame [3]) (graph_of (JobstmannGame [3]))
           (transpose (graph_of (JobstmannGame [3]))) [3] 1 = Some (Ok A) ∧
    ∀ s, attractor1 (JobstmannGame [3]) (graph_of (JobstmannGame [3]))
                    Removed [3] s → s ∈ A.
Proof.
  apply (attractor1_returned (JobstmannGame [3])
           (graph_of (JobstmannGame [3])) 4 [3]); try reflexivity.
  by_computation.
Defined.

(** ** Which target sets the solver accepts *)

(** X12: on a non-empty square game the solver returns a worklist exactly
    when every target is an index numpy accepts, that is, lies in
    [-n, n); a target in [-n, -1] is not rejected.  The returned worklist
    starts with the targets as they were given. *)
Theorem solver_returns_iff_targets_indexable {Act} (game : Game Act)
    (G T : ndarray) (i : Z) (n : nat) (final : list Z)
    (HG0 : shape0 G = n) (HG1 : shape1 G = n)
    (HT0 : shape0 T = n) (HT1 : shape1 T = n)
    (Hn : n ≠ 0%nat) :
  ((∃ A, solver game G T final i = Some (Ok A)) ↔
   Forall (λ s, - Z.of_nat n ≤ s < Z.of_nat n) final) ∧
  ∀ A, solver game G T final i = Some (Ok A) → final `prefix_of` A.
Proof.
  assert (Hback : Forall (λ s, - Z.of_nat n ≤ s < Z.of_nat n) final →
            ∃ A, solver game G T final i = Some (Ok A) ∧ final `prefix_of` A).
  { intros Hfinal. unfold solver.
    rewrite (solver_fuel_eq game G T i n) by done.
    apply (while_loop_wrapped game G T i n final); try done.
    - apply (worklist_inv_init G n HG0).
    - simpl. lia.
    - rewrite HG0. lia. }
  assert (Hforth : (∃ A, solver game G T final i = Some (Ok A)) →
            Forall (λ s, - Z.of_nat n ≤ s < Z.of_nat n) final).
  { intros [A HA].
    destruct (decide (Forall (λ s, - Z.of_nat n ≤ s < Z.of_nat n) final))
      as [|Hnot]; [done|].
    apply not_Forall_Exists in Hnot; [|apply _].
    apply Exists_exists in Hnot as (s & Hs & Hbad). simpl in Hbad.
    destruct (solver_bad_target game G T i n HG0 HG1 HT0 HT1 final s)
      as [e He]; [done|done|lia|].
    congruence. }
  split; [split; [done|]|].
  - intros Hfinal. destruct (Hback Hfinal) as (A & HA & _). by exists A.
  - intros A HA. destruct (Hback (Hforth (ex_intro _ A HA))) as (A' & HA' & Hp).
    congruence.
Qed.

Lemma solver_returns_iff_targets_indexable_witness :
  ((∃ A, solver (JobstmannGame [-1]) (graph_of (JobstmannGame [-1]))
                (transpose (graph_of (JobstmannGame [-1]))) [-1] 1
         = Some (Ok A)) ↔
   Forall (λ s, - Z.of_nat 4 ≤ s < Z.of_nat 4) [-1]) ∧
  ∀ A, solver (JobstmannGame [-1]) (graph_of (JobstmannGame [-1]))
              (transpose (graph_of (JobstmannGame [-1]))) [-1] 1
       = Some (Ok A) → [-1] `prefix_of` A.
Proof.
  apply (solver_returns_iff_targets_indexable (JobstmannGame [-1])
           (graph_of (JobstmannGame [-1]))
           (transpose (graph_of (JobstmannGame [-1]))) 1 4 [-1]);
    try reflexivity.
  lia.
Defined.

(** X13, the empty game: on matrices without rows and columns the loop
    finds no predecessors, and the solver returns the target sequence
    unchanged, whatever it holds. *)
Theorem solver_empty_game {Act} (game : Game Act) (G T : ndarray) (i : Z)
    (final : list Z)
    (HG0 : shape0 G = 0%nat) (HG1 : shape1 G = 0%nat)
    (HT0 : shape0 T = 0%nat) (HT1 : shape1 T = 0%nat) :
  solver game G T final i = Some (Ok final).
Proof.
  unfold solver. rewrite (solver_fuel_eq game G T i 0) by done.
  rewrite HG0, Nat.add_0_r.
  generalize (tmpMap0 G final) (Removed_states game G). intros tmpMap Removed.
  cut (∀ fuel index, (length final - index < fuel)%nat →
         while_loop game G T i fuel Removed index (final, tmpMap)
         = Some (Ok final)).
  { intros H. apply H. lia. }
  induction fuel as [|fuel IH]; intros index Hf; simpl.
  - lia.
  - case_decide as Hidx; [|done].
    destruct (lookup_lt_is_Some_2 final index) as [v Hv]; [done|].
    rewrite (iteration_empty game G T i 0 HG0 HG1 HT0 HT1 Removed index
               (final, tmpMap) v); [|done|done].
    apply IH. lia.
Qed.

Lemma solver_empty_game_witness :
  solver (JobstmannGame [5]) (zeros 0 0) (transpose (zeros 0 0)) [5; -2] 2
  = Some (Ok [5; -2]).
Proof.
  apply (solver_empty_game (JobstmannGame [5]) (zeros 0 0)
           (transpose (zeros 0 0)) 2 [5; -2]); reflexivity.
Defined.

(** ** Building the matrix and solving, as [__main__] does *)

Lemma lookup_range n (k : nat) :
  (k < n)%nat → range n !! k = Some (Z.of_nat k).
Proof.
  intros Hk. unfold range. by rewrite list_lookup_fmap, lookup_seq_lt.
Qed.

(** X14: for a game whose states are [0 .. n-1] and whose transition
    function stays within them, building the matrix and solving with its
    transpose, for a target set of declared states and any attracting
    player, returns a worklist of declared states that holds every target
    and in which every other state has an action of the game leading to a
    state that stands strictly earlier in the worklist. *)
Theorem solve_game_follows_actions {Act} `{EqDecision Act} (game : Game Act)
    (final : list Z) (i : Z) (n : nat)
    (Hstates : states game = range n)
    (Hclosed : ∀ s a ds, s ∈ states game → a ∈ actions game →
                 delta game s a = Some ds → ds ∈ states game)
    (Hfinal : Forall (λ s, s ∈ states game) final) :
  ∃ A,
    solve_game game final i = Some (Ok A) ∧
    (∀ s, s ∈ final → s ∈ A) ∧
    (∀ s, s ∈ A → s ∈ states game) ∧
    ∀ k s, A !! k = Some s → s ∉ final →
      ∃ j t a, (j < k)%nat ∧ A !! j = Some t ∧
               a ∈ actions game ∧ delta game s a = Some t.
Proof.
  destruct (matrixBuilder_fills game (states game) (actions game) Hclosed)
    as (M & HM & HM0 & HM1 & Hcells).
  rewrite Hstates, length_range in HM0, HM1.
  assert (Hfinal' : Forall (λ s, 0 ≤ s < Z.of_nat n) final).
  { eapply Forall_impl; [exact Hfinal|]. intros s Hs. simpl in Hs.
    rewrite Hstates in Hs. by apply elem_of_range. }
  unfold solve_game. rewrite HM.
  destruct (solver_closure game M i n final HM0 HM1 Hfinal')
    as (A & tmpMap & HA & Hinv & Hw & _).
  exists A. split; [done|].
  assert (Hr : Forall (λ s, 0 ≤ s < Z.of_nat n) A)
    by apply (worklist_inv_range n final Hfinal' _ _ Hinv).
  rewrite Forall_lookup in Hr.
  assert (Hnew : ∃ new, A = final ++ new).
  { destruct Hinv as (_ & new & Hnew & _). by exists new. }
  split; [|split].
  - destruct Hnew as [new ->]. intros s Hs. apply elem_of_app. by left.
  - intros s [k Hk]%list_elem_of_lookup. rewrite Hstates.
    apply elem_of_range. by eapply Hr.
  - intros k s Hk Hs.
    destruct (witnessed_successor M n final (length A) A tmpMap k s
                HM0 HM1 Hw Hnew Hk Hs) as (j & t & Hjk & Hj & Hedge).
    pose proof (Hr k s Hk) as Hsr. pose proof (Hr j t Hj) as Htr.
    rewrite getitem_nonneg in Hedge by lia. injection Hedge as Hedge.
    destruct (Hcells (Z.to_nat s) (Z.to_nat t))
      as [[_ (s' & a & ds & Hs' & Ha & Hd & Hrow & Hcol)]|[Hz _]];
      [|congruence].
    apply dict_get_positions in Hrow as [_ Hrow].
    apply dict_get_positions in Hcol as [_ Hcol].
    rewrite Nat2Z.id, Hstates, lookup_range in Hrow, Hcol by lia.
    exists j, t, a. split; [done|]. split; [done|]. split; [done|].
    replace s with s' by (injection Hrow; lia).
    replace t with ds by (injection Hcol; lia). done.
Qed.

Lemma solve_game_follows_actions_witness :
  ∃ A,
    solve_game (JobstmannGame [3]) [3] 1 = Some (Ok A) ∧
    (∀ s, s ∈ [3] → s ∈ A) ∧
    (∀ s, s ∈ A → s ∈ states (JobstmannGame [3])) ∧
    ∀ k s, A !! k = Some s → s ∉ [3] →
      ∃ j t a, (j < k)%nat ∧ A !! j = Some t ∧
               a ∈ actions (JobstmannGame [3]) ∧
               delta (JobstmannGame [3]) s a = Some t.
Proof.
  apply (solve_game_follows_actions (JobstmannGame [3]) [3] 1 4).
  - reflexivity.
  - intros s a ds _ Ha Hd. simpl in Ha, Hd.
    case_decide; [|done]. injection Hd as <-.
    repeat (apply elem_of_cons in Ha as [->|Ha]; [by_computation|]).
    by apply elem_of_nil in Ha.
  - by_computation.
Defined.
